(** * MusicTheory Bridge (VST3 plugin): chord aggregation and dispatch

    A shallow embedding of [vst3-plugin/src/plugin/MusicTheoryPlugin.cpp] and
    [vst3-plugin/src/network/HttpClient.cpp].

    - C++ [int] and [int64] values are integers of [Z]; the only arithmetic
      that can leave the 64-bit range, a difference of two sample
      positions, is wrapped explicitly ([sub64]).
    - C++ [double] is the kernel's binary64 type [float]: the products,
      quotients and comparisons of the source are the IEEE 754 ones.
    - [std::vector] is [list], [std::string] is [string].
    - libcurl is an oracle: a function from the request handed to
      [curl_easy_perform] to what came of it.  The calls of [postChord] and
      [postProgression] are also recorded, oldest first, in a ghost field
      of the client ([wire_]).
    - The worker thread of [HttpClient] is not modelled as a thread; the
      body of one iteration of its loop is [workerStep].
    - The diagnostic [printf] lines are not modelled. *)

From Stdlib Require Import ZArith List String Ascii Bool Lia.
From Stdlib Require Import Floats Uint63 DecimalString.
Import ListNotations.

Local Open Scope Z_scope.

(* ================================================================== *)
(** * Machine arithmetic *)

Definition INT_MIN : Z := - 2 ^ 31.
Definition INT_MAX : Z := 2 ^ 31 - 1.
Definition INT64_MIN : Z := - 2 ^ 63.
Definition INT64_MAX : Z := 2 ^ 63 - 1.

(** Two's complement reduction into the [int64] range. *)
Definition wrap64 (z : Z) : Z := (z + 2 ^ 63) mod 2 ^ 64 - 2 ^ 63.

(** [a - b] on [int64].  Overflow is undefined in C++; the model wraps, as
    the compiled subtraction does. *)
Definition sub64 (a b : Z) : Z := wrap64 (a - b).

(** [(double)z] for an [int64] (or [int]) value [z]: the nearest binary64
    value. *)
Definition double_of_int64 (z : Z) : float :=
  if z <? 0 then
    if z =? INT64_MIN then (-0x1p63)%float
    else (- of_uint63 (Uint63.of_Z (- z)))%float
  else of_uint63 (Uint63.of_Z z).

(** The integer part of a binary64 value, rounding toward zero; [None] for
    infinities and NaN. *)
Definition trunc_SF (x : spec_float) : option Z :=
  match x with
  | S754_zero _ => Some 0
  | S754_finite s m e =>
      let a := match e with
               | Zneg p => Z.shiftr (Zpos m) (Zpos p)
               | _ => Z.shiftl (Zpos m) e
               end in
      Some (if s then - a else a)
  | S754_infinity _ | S754_nan => None
  end.

Definition trunc (x : float) : option Z := trunc_SF (Prim2SF x).

(** [(int64)x] for a [double] [x].  C++ leaves the conversion undefined when
    the truncated value does not fit (and for NaN); the model takes what
    x86-64's [cvttsd2si] yields there, the most negative value. *)
Definition int64_of_double (x : float) : Z :=
  match trunc x with
  | Some z => if (INT64_MIN <=? z) && (z <=? INT64_MAX) then z else INT64_MIN
  | None => INT64_MIN
  end.

(** [(int)x] for a [double] [x], with the same convention. *)
Definition int_of_double (x : float) : Z :=
  match trunc x with
  | Some z => if (INT_MIN <=? z) && (z <=? INT_MAX) then z else INT_MIN
  | None => INT_MIN
  end.

(** [std::clamp(v, lo, hi)]: [(v < lo) ? lo : (hi < v) ? hi : v]. *)
Definition clamp (v lo hi : float) : float :=
  if (v <? lo)%float then lo else if (hi <? v)%float then hi else v.

(** [std::to_string] and [operator<<] on an integer: its decimal numeral. *)
Definition to_string (z : Z) : string := NilZero.string_of_int (Z.to_int z).

(** The double quote character, for the JSON payloads. *)
Definition dquote : string := String (ascii_of_nat 34) EmptyString.

(* ================================================================== *)
(** * HttpClient *)

(** [struct ChordTask] (HttpClient.h). *)
Record ChordTask : Type := mkChordTask {
  notes : list string;
  velocity : Z;
  durationMs : Z
}.

(** The default-constructed [ChordTask]. *)
Definition ChordTask_default : ChordTask := mkChordTask [] 96 2000.

(** What [postChord] and [postProgression] set on the curl handle. *)
Record Request : Type := mkRequest {
  req_url : string;
  req_payload : string;
  req_header : string;
  req_timeout_ms : Z
}.

(** What comes of one use of libcurl: [curl_easy_init] returned null;
    [curl_easy_perform] returned an error code (different from
    [CURLE_OK]); or the transfer completed with an HTTP response code. *)
Variant CurlOutcome : Type :=
  | CurlInitFailed
  | CurlError (res : Z)
  | CurlDone (code : Z).

(** The parts of the environment the client calls into: the network, the
    message libcurl has for an error code, and the text [operator<<] writes
    for a [double]. *)
Record Env : Type := mkEnv {
  curl_easy_perform : Request -> CurlOutcome;
  curl_easy_strerror : Z -> string;
  ostream_double : float -> string
}.

(** The data members of [class HttpClient] other than the thread, its flag
    and the lock, and the ghost trace [wire_]: one entry for each call of
    [postChord] or [postProgression], oldest first, holding the request of
    that call. *)
Record HttpClient : Type := mkHttpClient {
  baseUrl_ : string;
  queue_ : list ChordTask;
  lastError_ : string;
  lastStatus_ : string;
  wire_ : list Request
}.

(** [HttpClient::HttpClient(baseUrl)]. *)
Definition HttpClient_new (baseUrl : string) : HttpClient :=
  mkHttpClient baseUrl [] EmptyString EmptyString [].

(** [HttpClient::setBaseUrl]. *)
Definition setBaseUrl (url : string) (h : HttpClient) : HttpClient :=
  mkHttpClient url (queue_ h) (lastError_ h) (lastStatus_ h) (wire_ h).

(** [HttpClient::enqueueChord]: push at the back of the queue. *)
Definition enqueueChord (task : ChordTask) (h : HttpClient) : HttpClient :=
  mkHttpClient (baseUrl_ h) (queue_ h ++ [task]) (lastError_ h)
               (lastStatus_ h) (wire_ h).

(** The loop over [notes] of both payload builders: each name in quotes,
    a comma between two names. *)
Fixpoint json_notes (ns : list string) : string :=
  match ns with
  | [] => EmptyString
  | [n] => dquote ++ n ++ dquote
  | n :: rest => dquote ++ n ++ dquote ++ "," ++ json_notes rest
  end.

Definition chord_payload (task : ChordTask) : string :=
  "{" ++ dquote ++ "notes" ++ dquote ++ ":[" ++ json_notes (notes task)
  ++ "]," ++ dquote ++ "velocity" ++ dquote ++ ":" ++ to_string (velocity task)
  ++ "," ++ dquote ++ "duration_ms" ++ dquote ++ ":"
  ++ to_string (durationMs task) ++ "}".

Definition chord_request (baseUrl : string) (task : ChordTask) : Request :=
  mkRequest (baseUrl ++ "/midi/chord") (chord_payload task)
            "Content-Type: application/json" 1500.

(** What [postChord] and [postProgression] share: make the handle, perform
    the request, record the error or the status, report whether the status
    is a 2xx one. *)
Definition perform (env : Env) (rq : Request) (h : HttpClient)
  : bool * HttpClient :=
  match curl_easy_perform env rq with
  | CurlInitFailed =>
      (false, mkHttpClient (baseUrl_ h) (queue_ h) "curl init failed"
                           (lastStatus_ h) (wire_ h ++ [rq]))
  | CurlError res =>
      (false, mkHttpClient (baseUrl_ h) (queue_ h) (curl_easy_strerror env res)
                           (lastStatus_ h) (wire_ h ++ [rq]))
  | CurlDone code =>
      ((200 <=? code) && (code <? 300),
       mkHttpClient (baseUrl_ h) (queue_ h) (lastError_ h)
                    ("HTTP " ++ to_string code) (wire_ h ++ [rq]))
  end.

(** [HttpClient::postChord]. *)
Definition postChord (env : Env) (task : ChordTask) (h : HttpClient)
  : bool * HttpClient :=
  perform env (chord_request (baseUrl_ h) task) h.

(** One element of the [chords] array of a progression payload. *)
Definition json_chord (env : Env) (c : ChordTask) : string :=
  "{" ++ dquote ++ "notes" ++ dquote ++ ":[" ++ json_notes (notes c)
  ++ "]," ++ dquote ++ "duration_beats" ++ dquote ++ ":"
  ++ ostream_double env (double_of_int64 (durationMs c) / 1000)%float ++ "}".

Fixpoint json_chords (env : Env) (cs : list ChordTask) : string :=
  match cs with
  | [] => EmptyString
  | [c] => json_chord env c
  | c :: rest => json_chord env c ++ "," ++ json_chords env rest
  end.

Definition progression_payload (env : Env) (chords : list ChordTask)
    (bpm vel channel : Z) : string :=
  "{" ++ dquote ++ "chords" ++ dquote ++ ":[" ++ json_chords env chords
  ++ "]," ++ dquote ++ "bpm" ++ dquote ++ ":" ++ to_string bpm
  ++ "," ++ dquote ++ "velocity" ++ dquote ++ ":" ++ to_string vel
  ++ "," ++ dquote ++ "channel" ++ dquote ++ ":" ++ to_string channel ++ "}".

Definition progression_request (env : Env) (baseUrl : string)
    (chords : list ChordTask) (bpm vel channel : Z) : Request :=
  mkRequest (baseUrl ++ "/midi/progression")
            (progression_payload env chords bpm vel channel)
            "Content-Type: application/json" 2000.

(** [HttpClient::postProgression]; [channel] defaults to 0 at the call
    sites of the plugin. *)
Definition postProgression (env : Env) (chords : list ChordTask)
    (bpm vel channel : Z) (h : HttpClient) : bool * HttpClient :=
  perform env (progression_request env (baseUrl_ h) chords bpm vel channel) h.

(** The body of one iteration of [HttpClient::workerLoop] once the wait
    returns with the client running: pop the front task and post it, the
    result ignored.  With an empty queue the wait does not return. *)
Definition workerStep (env : Env) (h : HttpClient) : HttpClient :=
  match queue_ h with
  | [] => h
  | task :: rest =>
      snd (postChord env task
             (mkHttpClient (baseUrl_ h) rest (lastError_ h) (lastStatus_ h)
                           (wire_ h)))
  end.

(* ================================================================== *)
(** * The host's side of [process] *)

(** The fields of the SDK's [ProcessContext] the plugin reads.  The four
    booleans are the four bits of its [state] word the plugin tests
    ([kTempoValid], [kTimeSigValid], [kSampleRateValid],
    [kProjectTimeMusicValid]). *)
Record ProcessContext : Type := mkProcessContext {
  tempoValid : bool;
  timeSigValid : bool;
  sampleRateValid : bool;
  projectTimeMusicValid : bool;
  tempo : float;
  timeSigNumerator : Z;
  timeSigDenominator : Z;
  sampleRate : float;
  projectTimeMusic : float
}.

(** The events of the input list the plugin tells apart, by [e.type]. *)
Variant Event : Type :=
  | NoteOnEvent (pitch : Z) (vel : Z)
  | NoteOffEvent (pitch : Z)
  | DataEvent
  | OtherEvent.

(** [ProcessData]: both members are pointers and may be null. *)
Record ProcessData : Type := mkProcessData {
  processContext : option ProcessContext;
  inputEvents : option (list Event)
}.

(* ================================================================== *)
(** * MusicTheoryPlugin *)

(** The data members of [class MusicTheoryPlugin] (MusicTheoryPlugin.h). *)
Record MusicTheoryPlugin : Type := mkPlugin {
  httpClient_ : HttpClient;
  sampleRate_ : float;
  tempoBPM_ : float;
  lastBarSamplePos_ : Z;
  timeSigNum_ : Z;
  timeSigDen_ : Z;
  currentChordNotes_ : list Z;
  lastVelocity_ : Z;
  noteOnSamplePos_ : list Z;
  silenceFlushMs_ : Z;
  lastActiveNoteSample_ : Z;
  sendBatchProgression_ : bool;
  progressionBuffer_ : list ChordTask
}.

(** The member initialisers and the constructor. *)
Definition MusicTheoryPlugin_new : MusicTheoryPlugin :=
  mkPlugin (HttpClient_new "http://127.0.0.1:5544")
           44100 120 0 4 4 [] 90 [] 250 0 false [].

Definition set_httpClient (h : HttpClient) (p : MusicTheoryPlugin) :=
  mkPlugin h (sampleRate_ p) (tempoBPM_ p) (lastBarSamplePos_ p)
    (timeSigNum_ p) (timeSigDen_ p) (currentChordNotes_ p) (lastVelocity_ p)
    (noteOnSamplePos_ p) (silenceFlushMs_ p) (lastActiveNoteSample_ p)
    (sendBatchProgression_ p) (progressionBuffer_ p).

Definition set_sampleRate (x : float) (p : MusicTheoryPlugin) :=
  mkPlugin (httpClient_ p) x (tempoBPM_ p) (lastBarSamplePos_ p)
    (timeSigNum_ p) (timeSigDen_ p) (currentChordNotes_ p) (lastVelocity_ p)
    (noteOnSamplePos_ p) (silenceFlushMs_ p) (lastActiveNoteSample_ p)
    (sendBatchProgression_ p) (progressionBuffer_ p).

Definition set_tempoBPM (x : float) (p : MusicTheoryPlugin) :=
  mkPlugin (httpClient_ p) (sampleRate_ p) x (lastBarSamplePos_ p)
    (timeSigNum_ p) (timeSigDen_ p) (currentChordNotes_ p) (lastVelocity_ p)
    (noteOnSamplePos_ p) (silenceFlushMs_ p) (lastActiveNoteSample_ p)
    (sendBatchProgression_ p) (progressionBuffer_ p).

Definition set_lastBarSamplePos (x : Z) (p : MusicTheoryPlugin) :=
  mkPlugin (httpClient_ p) (sampleRate_ p) (tempoBPM_ p) x
    (timeSigNum_ p) (timeSigDen_ p) (currentChordNotes_ p) (lastVelocity_ p)
    (noteOnSamplePos_ p) (silenceFlushMs_ p) (lastActiveNoteSample_ p)
    (sendBatchProgression_ p) (progressionBuffer_ p).

Definition set_timeSig (num den : Z) (p : MusicTheoryPlugin) :=
  mkPlugin (httpClient_ p) (sampleRate_ p) (tempoBPM_ p) (lastBarSamplePos_ p)
    num den (currentChordNotes_ p) (lastVelocity_ p)
    (noteOnSamplePos_ p) (silenceFlushMs_ p) (lastActiveNoteSample_ p)
    (sendBatchProgression_ p) (progressionBuffer_ p).

Definition set_currentChordNotes (x : list Z) (p : MusicTheoryPlugin) :=
  mkPlugin (httpClient_ p) (sampleRate_ p) (tempoBPM_ p) (lastBarSamplePos_ p)
    (timeSigNum_ p) (timeSigDen_ p) x (lastVelocity_ p)
    (noteOnSamplePos_ p) (silenceFlushMs_ p) (lastActiveNoteSample_ p)
    (sendBatchProgression_ p) (progressionBuffer_ p).

Definition set_lastVelocity (x : Z) (p : MusicTheoryPlugin) :=
  mkPlugin (httpClient_ p) (sampleRate_ p) (tempoBPM_ p) (lastBarSamplePos_ p)
    (timeSigNum_ p) (timeSigDen_ p) (currentChordNotes_ p) x
    (noteOnSamplePos_ p) (silenceFlushMs_ p) (lastActiveNoteSample_ p)
    (sendBatchProgression_ p) (progressionBuffer_ p).

Definition set_noteOnSamplePos (x : list Z) (p : MusicTheoryPlugin) :=
  mkPlugin (httpClient_ p) (sampleRate_ p) (tempoBPM_ p) (lastBarSamplePos_ p)
    (timeSigNum_ p) (timeSigDen_ p) (currentChordNotes_ p) (lastVelocity_ p)
    x (silenceFlushMs_ p) (lastActiveNoteSample_ p)
    (sendBatchProgression_ p) (progressionBuffer_ p).

Definition set_lastActiveNoteSample (x : Z) (p : MusicTheoryPlugin) :=
  mkPlugin (httpClient_ p) (sampleRate_ p) (tempoBPM_ p) (lastBarSamplePos_ p)
    (timeSigNum_ p) (timeSigDen_ p) (currentChordNotes_ p) (lastVelocity_ p)
    (noteOnSamplePos_ p) (silenceFlushMs_ p) x
    (sendBatchProgression_ p) (progressionBuffer_ p).

Definition set_progressionBuffer (x : list ChordTask) (p : MusicTheoryPlugin) :=
  mkPlugin (httpClient_ p) (sampleRate_ p) (tempoBPM_ p) (lastBarSamplePos_ p)
    (timeSigNum_ p) (timeSigDen_ p) (currentChordNotes_ p) (lastVelocity_ p)
    (noteOnSamplePos_ p) (silenceFlushMs_ p) (lastActiveNoteSample_ p)
    (sendBatchProgression_ p) x.

(** ** flushChord *)

(** The table [names] of [flushChord]. *)
Definition names : list string :=
  ["C"; "C#"; "D"; "D#"; "E"; "F"; "F#"; "G"; "G#"; "A"; "A#"; "B"]%string.

(** The body of the loop over [currentChordNotes_]: [%] and [/] of C++
    truncate toward zero ([Z.rem], [Z.quot]).  A negative pitch would read
    before the table, which C++ leaves undefined; the model yields the
    empty string for the pitch class then. *)
Definition noteName (midi : Z) : string :=
  let pc := Z.rem midi 12 in
  let oct := Z.quot midi 12 - 1 in
  (if pc <? 0 then EmptyString else nth (Z.to_nat pc) names EmptyString)
  ++ to_string oct.

(** [*std::min_element(first, last)] on the vector [o :: os]. *)
Definition min_element (o : Z) (os : list Z) : Z := fold_left Z.min os o.

(** The duration in milliseconds from [earliest] to [nowSamples]. *)
Definition durationOf (sampleRate : float) (nowSamples earliest : Z) : Z :=
  let span := Z.max 0 (sub64 nowSamples earliest) in
  let ms := (double_of_int64 span * 1000 / sampleRate)%float in
  int_of_double (clamp ms 50 4000).

(** The [ChordTask] that [flushChord] fills in before it dispatches it. *)
Definition chordTask (p : MusicTheoryPlugin) : ChordTask :=
  mkChordTask
    (map noteName (currentChordNotes_ p))
    (lastVelocity_ p)
    (let nowSamples := lastBarSamplePos_ p in
     match noteOnSamplePos_ p with
     | o :: os => durationOf (sampleRate_ p) nowSamples (min_element o os)
     | [] => 1000
     end).

(** [barsPerBatch] of [flushChord]. *)
Definition barsPerBatch : nat := 4.

(** [MusicTheoryPlugin::flushChord]. *)
Definition flushChord (env : Env) (p : MusicTheoryPlugin) : MusicTheoryPlugin :=
  match currentChordNotes_ p with
  | [] => p
  | _ :: _ =>
      let task := chordTask p in
      let p1 :=
        if sendBatchProgression_ p then
          let p' := set_progressionBuffer (progressionBuffer_ p ++ [task]) p in
          if (barsPerBatch <=? List.length (progressionBuffer_ p'))%nat then
            let '(_, h) :=
              postProgression env (progressionBuffer_ p')
                (int_of_double (tempoBPM_ p')) (lastVelocity_ p') 0
                (httpClient_ p') in
            set_progressionBuffer [] (set_httpClient h p')
          else p'
        else set_httpClient (enqueueChord task (httpClient_ p)) p in
      set_noteOnSamplePos [] (set_currentChordNotes [] p1)
  end.

(** [MusicTheoryPlugin::sendProgressionNow]. *)
Definition sendProgressionNow (env : Env) (p : MusicTheoryPlugin)
  : MusicTheoryPlugin :=
  match progressionBuffer_ p with
  | [] => p
  | _ :: _ =>
      let '(_, h) :=
        postProgression env (progressionBuffer_ p)
          (int_of_double (tempoBPM_ p)) (lastVelocity_ p) 0 (httpClient_ p) in
      set_progressionBuffer [] (set_httpClient h p)
  end.

(** [MusicTheoryPlugin::isBarBoundary]: the [int64] difference is converted
    to [double] for the comparison. *)
Definition isBarBoundary (p : MusicTheoryPlugin) (currentSamplePos : Z)
    (samplesPerBar : float) : bool :=
  (samplesPerBar <=? double_of_int64 (sub64 currentSamplePos (lastBarSamplePos_ p)))%float.

(** ** handleMidiEvents *)

(** The sample position both branches of [handleMidiEvents] and [process]
    compute from the musical position: 0 without a context or a valid
    position. *)
Definition samplePos (p : MusicTheoryPlugin) (ctx : option ProcessContext) : Z :=
  match ctx with
  | Some c =>
      if projectTimeMusicValid c then
        int64_of_double
          (projectTimeMusic c * (sampleRate_ p * (60 / tempoBPM_ p)))%float
      else 0
  | None => 0
  end.

(** [std::find] followed by [erase]: drop the first element equal to
    [pitch], if there is one. *)
Fixpoint erase_first (pitch : Z) (l : list Z) : list Z :=
  match l with
  | [] => []
  | x :: rest => if x =? pitch then rest else x :: erase_first pitch rest
  end.

(** [noteOnSamplePos_.erase(noteOnSamplePos_.begin())] when not empty. *)
Definition erase_begin (l : list Z) : list Z :=
  match l with
  | [] => []
  | _ :: rest => rest
  end.

(** The body of the loop of [handleMidiEvents] for one event. *)
Definition handleEvent (ctx : option ProcessContext) (p : MusicTheoryPlugin)
    (e : Event) : MusicTheoryPlugin :=
  match e with
  | NoteOnEvent pitch vel =>
      let pos := samplePos p ctx in
      set_lastActiveNoteSample pos
        (set_noteOnSamplePos (noteOnSamplePos_ p ++ [pos])
           (set_lastVelocity vel
              (set_currentChordNotes (currentChordNotes_ p ++ [pitch]) p)))
  | NoteOffEvent pitch =>
      let p1 := set_currentChordNotes
                  (erase_first pitch (currentChordNotes_ p)) p in
      let p2 := set_noteOnSamplePos (erase_begin (noteOnSamplePos_ p1)) p1 in
      match currentChordNotes_ p2 with
      | [] => set_lastActiveNoteSample (samplePos p2 ctx) p2
      | _ :: _ => p2
      end
  | DataEvent | OtherEvent => p
  end.

(** [MusicTheoryPlugin::handleMidiEvents]. *)
Definition handleMidiEvents (data : ProcessData) (p : MusicTheoryPlugin)
  : MusicTheoryPlugin :=
  match inputEvents data with
  | Some evs => fold_left (handleEvent (processContext data)) evs p
  | None => p
  end.

(** ** process *)

(** Which of the two tests of [process] led to a call of [flushChord]. *)
Variant FlushCause : Type := SilenceFlush | BarFlush.

(** The three conditional assignments that open [process]. *)
Definition updateClock (ctx : option ProcessContext) (p : MusicTheoryPlugin)
  : MusicTheoryPlugin :=
  match ctx with
  | None => p
  | Some c =>
      let p1 := if tempoValid c then set_tempoBPM (tempo c) p else p in
      let p2 := if timeSigValid c
                then set_timeSig (timeSigNumerator c) (timeSigDenominator c) p1
                else p1 in
      if sampleRateValid c then set_sampleRate (sampleRate c) p2 else p2
  end.

(** [samplesPerBar] of [process]. *)
Definition samplesPerBarOf (p : MusicTheoryPlugin) : float :=
  let beatsPerBar :=
    (double_of_int64 (timeSigNum_ p) * (4 / double_of_int64 (timeSigDen_ p)))%float in
  let secondsPerBeat := (60 / tempoBPM_ p)%float in
  (secondsPerBeat * beatsPerBar * sampleRate_ p)%float.

(** [silenceSamplesThreshold] of [process]. *)
Definition silenceSamplesThreshold (p : MusicTheoryPlugin) : Z :=
  int64_of_double
    (double_of_int64 (silenceFlushMs_ p) * sampleRate_ p / 1000)%float.

(** The silence test of [process]. *)
Definition silenceDue (p : MusicTheoryPlugin) (currentSamples : Z) : bool :=
  match currentChordNotes_ p with
  | [] =>
      (0 <? lastActiveNoteSample_ p)
      && (silenceSamplesThreshold p
            <=? sub64 currentSamples (lastActiveNoteSample_ p))
  | _ :: _ => false
  end.

(** [MusicTheoryPlugin::process].  The result pairs the plugin after the
    cycle with the calls of [flushChord] made in it, in order (the function
    itself returns [kResultOk] on every path). *)
Definition process (env : Env) (data : ProcessData) (p : MusicTheoryPlugin)
  : MusicTheoryPlugin * list FlushCause :=
  let p1 := updateClock (processContext data) p in
  let p2 := handleMidiEvents data p1 in
  let samplesPerBar := samplesPerBarOf p2 in
  match processContext data with
  | Some c =>
      if projectTimeMusicValid c then
        let currentSamples := samplePos p2 (processContext data) in
        let '(p3, t3) :=
          if silenceDue p2 currentSamples then
            (set_lastActiveNoteSample 0
               (flushChord env (set_lastBarSamplePos currentSamples p2)),
             [SilenceFlush])
          else (p2, []) in
        if isBarBoundary p3 currentSamples samplesPerBar then
          (flushChord env (set_lastBarSamplePos currentSamples p3),
           t3 ++ [BarFlush])
        else (p3, t3)
      else (p2, [])
  | None => (p2, [])
  end.

(** ** Concrete inputs used by the examples *)

(** A network on which every request completes with status 200. *)
Definition env_ok : Env :=
  mkEnv (fun _ => CurlDone 200) (fun _ => "error"%string) (fun _ => "0"%string).

(** A processing cycle at musical position [q] (the only valid field of the
    context) carrying the events [evs]. *)
Definition cycleAt (q : float) (evs : list Event) : ProcessData :=
  mkProcessData (Some (mkProcessContext false false false true 0 0 0 0 q))
                (Some evs).

(** The plugin after a list of cycles. *)
Definition runCycles (env : Env) (ds : list ProcessData) (p : MusicTheoryPlugin)
  : MusicTheoryPlugin :=
  fold_left (fun q d => fst (process env d q)) ds p.

(** At 44100 Hz and 120 BPM a quarter note lasts 22050 samples, so these
    are the musical positions of samples 0, 100 and 5000. *)
Definition heldC4E4 (v64 : Z) : list ProcessData :=
  [cycleAt 0 [NoteOnEvent 60 100];
   cycleAt (100 / 22050) [NoteOnEvent 64 v64]].

Definition releasedC4E4 (v64 : Z) : list ProcessData :=
  heldC4E4 v64 ++ [cycleAt (5000 / 22050) [NoteOffEvent 60; NoteOffEvent 64]].

(** ** The note-name formula as the specification words it *)

(** [pitchClassNames[p % 12]] followed by [(p / 12) - 1], with the
    mathematical remainder and quotient. *)
Definition specNoteName (p : Z) : string :=
  nth (Z.to_nat (p mod 12)) names EmptyString ++ to_string (p / 12 - 1).

(** ** Event sequences without retriggering *)

(** [noRetrigger held evs]: played from the held notes [held], no note-on of
    [evs] carries a pitch that is held when it arrives. *)
Fixpoint noRetrigger (held : list Z) (evs : list Event) : Prop :=
  match evs with
  | [] => True
  | NoteOnEvent k _ :: rest => ~ In k held /\ noRetrigger (held ++ [k]) rest
  | NoteOffEvent k :: rest => noRetrigger (erase_first k held) rest
  | _ :: rest => noRetrigger held rest
  end.

(** Whether an event is a note-on or a note-off. *)
Definition isNoteEvent (e : Event) : bool :=
  match e with
  | NoteOnEvent _ _ | NoteOffEvent _ => true
  | DataEvent | OtherEvent => false
  end.

(** [a] and [b] agree on what the batcher and the sender own. *)
Definition sameDispatchState (a b : MusicTheoryPlugin) : Prop :=
  httpClient_ a = httpClient_ b
  /\ progressionBuffer_ a = progressionBuffer_ b
  /\ sendBatchProgression_ a = sendBatchProgression_ b.

(** A cycle whose event list carries no note-on and no note-off. *)
Definition noNoteEvents (data : ProcessData) : bool :=
  match inputEvents data with
  | Some evs => forallb (fun e => negb (isNoteEvent e)) evs
  | None => true
  end.

(** ** The duration formula as the specification words it *)

(** [clamp((currentSample - earliestOnset) * 1000 / sampleRate, 50, 4000)],
    in the arithmetic of the source: the difference on [int64], the rest on
    [double], the result converted to [int]. *)
Definition specDuration (sampleRate : float) (currentSample earliest : Z) : Z :=
  int_of_double
    (clamp (double_of_int64 (sub64 currentSample earliest) * 1000 / sampleRate)
       50 4000).

(** A sample rate as the data model has it: a positive, finite number. *)
Definition positiveRate (sr : float) : bool :=
  (0 <? sr)%float && (sr <? infinity)%float.

(** ** Signs of binary64 values *)

(** [SFsign s x]: [x] is a number (not NaN) and, unless it is a zero, has
    sign [s] ([true] for negative). *)
Definition SFsign (s : bool) (x : spec_float) : Prop :=
  match x with
  | S754_zero _ => True
  | S754_infinity s' | S754_finite s' _ _ => s' = s
  | S754_nan => False
  end.

(** ** The worker and the events, for the further properties *)

(** [n] iterations of the loop of [HttpClient::workerLoop], the client
    running and no producer in between. *)
Fixpoint workerRun (env : Env) (n : nat) (h : HttpClient) : HttpClient :=
  match n with
  | O => h
  | S n' => workerRun env n' (workerStep env h)
  end.

(** The note-on events of a list of pitches paired with velocities. *)
Definition noteOnsOf (l : list (Z * Z)) : list Event :=
  map (fun kv => NoteOnEvent (fst kv) (snd kv)) l.

(** The velocity of the last note-on of [evs], [v0] when there is none. *)
Definition lastNoteOnVelocity (evs : list Event) (v0 : Z) : Z :=
  fold_left (fun v e => match e with NoteOnEvent _ v' => v' | _ => v end)
            evs v0.

(** A note name between double quotes, as the payloads write it. *)
Definition quoted (n : string) : string := dquote ++ n ++ dquote.

(** The MIDI pitches, 0 to 127. *)
Definition midiPitches : list Z := map Z.of_nat (seq 0 128).

(* ================================================================== *)
(** * Lists: erasing the first match *)

Lemma erase_first_notin (k : Z) (l : list Z) :
  ~ In k l -> erase_first k l = l.
Proof.
  induction l as [|x l IH]; simpl; intros Hn; [reflexivity|].
  destruct (Z.eqb_spec x k) as [->|_].
  - exfalso; apply Hn; now left.
  - f_equal; apply IH; intros Hin; apply Hn; now right.
Qed.

Lemma erase_first_incl (k x : Z) (l : list Z) :
  In x (erase_first k l) -> In x l.
Proof.
  induction l as [|y l IH]; simpl; [tauto|].
  destruct (Z.eqb_spec y k); simpl; intuition.
Qed.

Lemma erase_first_NoDup (k : Z) (l : list Z) :
  NoDup l -> NoDup (erase_first k l).
Proof.
  induction 1 as [|y l Hy Hl IH]; simpl; [constructor|].
  destruct (Z.eqb_spec y k); [assumption|].
  constructor; [|assumption].
  intros Hin; apply Hy; eapply erase_first_incl; eassumption.
Qed.

Lemma NoDup_snoc (k : Z) (l : list Z) :
  NoDup l -> ~ In k l -> NoDup (l ++ [k]).
Proof.
  induction 1 as [|y l Hy Hl IH]; simpl; intros Hk.
  - constructor; [tauto|constructor].
  - constructor.
    + rewrite in_app_iff; simpl; intros [H|[H|[]]]; [tauto|].
      apply Hk; left; congruence.
    + apply IH; tauto.
Qed.

Lemma snoc_dup (k : Z) (l : list Z) : In k l -> ~ NoDup (l ++ [k]).
Proof.
  intros Hin Hnd.
  apply in_split in Hin as (l1 & l2 & ->).
  rewrite <- app_assoc in Hnd; simpl in Hnd.
  apply NoDup_remove_2 in Hnd.
  apply Hnd; rewrite !in_app_iff; simpl; tauto.
Qed.

(* ================================================================== *)
(** * What the event handler leaves alone *)

Lemma handleEvent_notes ctx p e :
  currentChordNotes_ (handleEvent ctx p e) =
  match e with
  | NoteOnEvent k _ => currentChordNotes_ p ++ [k]
  | NoteOffEvent k => erase_first k (currentChordNotes_ p)
  | _ => currentChordNotes_ p
  end.
Proof.
  destruct e; simpl; try reflexivity.
  destruct (erase_first pitch (currentChordNotes_ p)) eqn:E; simpl; now rewrite ?E.
Qed.

Lemma handleEvent_onsets ctx p e :
  noteOnSamplePos_ (handleEvent ctx p e) =
  match e with
  | NoteOnEvent _ _ => noteOnSamplePos_ p ++ [samplePos p ctx]
  | NoteOffEvent _ => erase_begin (noteOnSamplePos_ p)
  | _ => noteOnSamplePos_ p
  end.
Proof.
  destruct e; simpl; try reflexivity.
  destruct (erase_first pitch (currentChordNotes_ p)); reflexivity.
Qed.

Lemma handleEvent_dispatch ctx p e : sameDispatchState (handleEvent ctx p e) p.
Proof.
  unfold sameDispatchState; destruct e; simpl; auto.
  destruct (erase_first pitch (currentChordNotes_ p)); simpl; auto.
Qed.

Lemma handleEvent_clock ctx p e :
  sampleRate_ (handleEvent ctx p e) = sampleRate_ p
  /\ tempoBPM_ (handleEvent ctx p e) = tempoBPM_ p
  /\ timeSigNum_ (handleEvent ctx p e) = timeSigNum_ p
  /\ timeSigDen_ (handleEvent ctx p e) = timeSigDen_ p
  /\ silenceFlushMs_ (handleEvent ctx p e) = silenceFlushMs_ p
  /\ lastBarSamplePos_ (handleEvent ctx p e) = lastBarSamplePos_ p.
Proof.
  destruct e; simpl; auto 7.
  destruct (erase_first pitch (currentChordNotes_ p)); simpl; auto 7.
Qed.

Lemma handleEvent_quiet ctx p e : isNoteEvent e = false -> handleEvent ctx p e = p.
Proof. destruct e; simpl; congruence. Qed.

Lemma handleEvents_quiet ctx evs : forall p,
  forallb (fun e => negb (isNoteEvent e)) evs = true ->
  fold_left (handleEvent ctx) evs p = p.
Proof.
  induction evs as [|e evs IH]; simpl; intros p H; [reflexivity|].
  apply andb_prop in H as [He Hr].
  rewrite handleEvent_quiet by (now destruct (isNoteEvent e)).
  now apply IH.
Qed.

Lemma handleEvents_clock ctx evs : forall p,
  sampleRate_ (fold_left (handleEvent ctx) evs p) = sampleRate_ p
  /\ tempoBPM_ (fold_left (handleEvent ctx) evs p) = tempoBPM_ p
  /\ timeSigNum_ (fold_left (handleEvent ctx) evs p) = timeSigNum_ p
  /\ timeSigDen_ (fold_left (handleEvent ctx) evs p) = timeSigDen_ p
  /\ silenceFlushMs_ (fold_left (handleEvent ctx) evs p) = silenceFlushMs_ p
  /\ lastBarSamplePos_ (fold_left (handleEvent ctx) evs p) = lastBarSamplePos_ p.
Proof.
  induction evs as [|e evs IH]; simpl; intros p; [auto 7|].
  destruct (IH (handleEvent ctx p e)) as (a & b & c & d & f & g).
  destruct (handleEvent_clock ctx p e) as (a' & b' & c' & d' & f' & g').
  repeat split; congruence.
Qed.

Lemma handleMidiEvents_samplesPerBar data p :
  samplesPerBarOf (handleMidiEvents data p) = samplesPerBarOf p.
Proof.
  unfold handleMidiEvents, samplesPerBarOf.
  destruct (inputEvents data) as [evs|]; [|reflexivity].
  destruct (handleEvents_clock (processContext data) evs p)
    as (-> & -> & -> & -> & _); reflexivity.
Qed.

(* ================================================================== *)
(** * flushChord: what is dispatched *)

Lemma flushChord_empty env p : currentChordNotes_ p = [] -> flushChord env p = p.
Proof. unfold flushChord; now intros ->. Qed.

Lemma flushChord_enqueue env p :
  currentChordNotes_ p <> [] -> sendBatchProgression_ p = false ->
  flushChord env p =
  set_noteOnSamplePos []
    (set_currentChordNotes []
       (set_httpClient (enqueueChord (chordTask p) (httpClient_ p)) p)).
Proof.
  unfold flushChord; intros Hn Hb.
  destruct (currentChordNotes_ p); [congruence|].
  now rewrite Hb.
Qed.

Lemma flushChord_buffer env p :
  currentChordNotes_ p <> [] -> sendBatchProgression_ p = true ->
  (List.length (progressionBuffer_ p) + 1 < barsPerBatch)%nat ->
  flushChord env p =
  set_noteOnSamplePos []
    (set_currentChordNotes []
       (set_progressionBuffer (progressionBuffer_ p ++ [chordTask p]) p)).
Proof.
  unfold flushChord; intros Hn Hb Hlen.
  destruct (currentChordNotes_ p); [congruence|].
  rewrite Hb; cbn [progressionBuffer_ set_progressionBuffer].
  rewrite length_app; simpl List.length.
  destruct (Nat.leb_spec barsPerBatch (List.length (progressionBuffer_ p) + 1));
    [lia|reflexivity].
Qed.

Lemma flushChord_post env p :
  currentChordNotes_ p <> [] -> sendBatchProgression_ p = true ->
  (barsPerBatch <= List.length (progressionBuffer_ p) + 1)%nat ->
  flushChord env p =
  set_noteOnSamplePos []
    (set_currentChordNotes []
       (set_progressionBuffer []
          (set_httpClient
             (snd (postProgression env (progressionBuffer_ p ++ [chordTask p])
                     (int_of_double (tempoBPM_ p)) (lastVelocity_ p) 0
                     (httpClient_ p)))
             (set_progressionBuffer (progressionBuffer_ p ++ [chordTask p]) p)))).
Proof.
  unfold flushChord; intros Hn Hb Hlen.
  destruct (currentChordNotes_ p); [congruence|].
  rewrite Hb; cbn [progressionBuffer_ set_progressionBuffer tempoBPM_
                   lastVelocity_ httpClient_].
  rewrite length_app; simpl List.length.
  destruct (Nat.leb_spec barsPerBatch (List.length (progressionBuffer_ p) + 1));
    [|lia].
  now destruct (postProgression _ _ _ _ _ _).
Qed.

Lemma perform_wire env rq h : wire_ (snd (perform env rq h)) = wire_ h ++ [rq].
Proof. unfold perform; now destruct (curl_easy_perform env rq). Qed.

Lemma perform_queue env rq h : queue_ (snd (perform env rq h)) = queue_ h.
Proof. unfold perform; now destruct (curl_easy_perform env rq). Qed.

Lemma perform_baseUrl env rq h : baseUrl_ (snd (perform env rq h)) = baseUrl_ h.
Proof. unfold perform; now destruct (curl_easy_perform env rq). Qed.

(* ================================================================== *)
(** * The claims on note tracking *)

(** C1 (the code departs from the claim).  With C4 and E4 held, their onset
    records being samples 0 and 100, the note-off of E4 (pitch 64) takes
    pitch 64 out of the held notes but removes the record at the front of
    the onset list, which is the record of pitch 60: the record left, 100,
    is that of the released pitch, and a flush at sample 5000 then measures
    the duration of C4 from sample 100 (111 ms, not 113 ms). *)
Theorem noteOff_removes_front_record :
  let held := runCycles env_ok (heldC4E4 100) MusicTheoryPlugin_new in
  let after :=
    runCycles env_ok [cycleAt (5000 / 22050) [NoteOffEvent 64]] held in
  (currentChordNotes_ held = [60; 64] /\ noteOnSamplePos_ held = [0; 100])
  /\ (currentChordNotes_ after = [60] /\ noteOnSamplePos_ after = [100])
  /\ queue_ (httpClient_ (flushChord env_ok (set_lastBarSamplePos 5000 after)))
     = [mkChordTask ["C4"%string] 100 111].
Proof. vm_compute. repeat split; reflexivity. Qed.

(** C2 (counterexample).  Two note-ons of pitch 60 leave pitch 60 twice in
    the held notes. *)
Lemma retrigger_duplicates_pitch :
  let p := runCycles env_ok
             [cycleAt 0 [NoteOnEvent 60 100; NoteOnEvent 60 100]]
             MusicTheoryPlugin_new in
  currentChordNotes_ p = [60; 60] /\ ~ NoDup (currentChordNotes_ p).
Proof.
  vm_compute. split; [reflexivity|].
  intros H; inversion H as [|x l Hx Hl]; subst. apply Hx; now left.
Qed.

(** C2 (amended).  Along every sequence of events in which no note-on
    carries a pitch that is held when it arrives, the held notes contain
    each pitch at most once at every point; a note-on of a held pitch
    appends the pitch a second time. *)
Theorem held_notes_unique_without_retrigger ctx evs p :
  NoDup (currentChordNotes_ p) ->
  noRetrigger (currentChordNotes_ p) evs ->
  (forall n,
     NoDup (currentChordNotes_ (fold_left (handleEvent ctx) (firstn n evs) p)))
  /\ (forall k v, In k (currentChordNotes_ p) ->
        currentChordNotes_ (handleEvent ctx p (NoteOnEvent k v))
        = currentChordNotes_ p ++ [k]
        /\ ~ NoDup (currentChordNotes_ (handleEvent ctx p (NoteOnEvent k v)))).
Proof.
  intros Hnd Hev; split.
  - intros n; revert evs p Hnd Hev.
    induction n as [|n IH]; intros evs p Hnd Hev; [exact Hnd|].
    destruct evs as [|e evs]; [exact Hnd|].
    simpl firstn; simpl fold_left.
    apply IH.
    + rewrite handleEvent_notes; destruct e; simpl in Hev; auto.
      * apply NoDup_snoc; tauto.
      * now apply erase_first_NoDup.
    + rewrite handleEvent_notes; destruct e; simpl in Hev; tauto.
  - intros k v Hin; rewrite handleEvent_notes; split; [reflexivity|].
    now apply snoc_dup.
Qed.

Lemma held_notes_unique_without_retrigger_witness :
  NoDup (currentChordNotes_ MusicTheoryPlugin_new)
  /\ noRetrigger (currentChordNotes_ MusicTheoryPlugin_new)
       [NoteOnEvent 60 100; NoteOnEvent 64 100; NoteOffEvent 60]
  /\ NoDup (currentChordNotes_
              (fold_left (handleEvent None)
                 (firstn 2 [NoteOnEvent 60 100; NoteOnEvent 64 100; NoteOffEvent 60])
                 MusicTheoryPlugin_new)).
Proof.
  assert (Hnd : NoDup (currentChordNotes_ MusicTheoryPlugin_new))
    by (simpl; constructor).
  assert (Hev : noRetrigger (currentChordNotes_ MusicTheoryPlugin_new)
                  [NoteOnEvent 60 100; NoteOnEvent 64 100; NoteOffEvent 60]).
  { simpl. repeat split; try tauto. intros [H|[]]; discriminate. }
  split; [exact Hnd|split; [exact Hev|]].
  exact (proj1 (held_notes_unique_without_retrigger None _ _ Hnd Hev) 2%nat).
Defined.

(** C9.  A flush with no held note changes nothing: no record is built,
    nothing is enqueued or sent, and the held notes, the onset records and
    the progression buffer are what they were. *)
Theorem flush_of_empty_set_is_noop env p :
  currentChordNotes_ p = [] ->
  flushChord env p = p
  /\ queue_ (httpClient_ (flushChord env p)) = queue_ (httpClient_ p)
  /\ wire_ (httpClient_ (flushChord env p)) = wire_ (httpClient_ p)
  /\ currentChordNotes_ (flushChord env p) = []
  /\ noteOnSamplePos_ (flushChord env p) = noteOnSamplePos_ p
  /\ progressionBuffer_ (flushChord env p) = progressionBuffer_ p.
Proof.
  intros H; rewrite (flushChord_empty env p H); repeat split; assumption.
Qed.

Lemma flush_of_empty_set_is_noop_witness :
  currentChordNotes_ MusicTheoryPlugin_new = []
  /\ flushChord env_ok MusicTheoryPlugin_new = MusicTheoryPlugin_new.
Proof.
  split; [reflexivity|].
  exact (proj1 (flush_of_empty_set_is_noop env_ok MusicTheoryPlugin_new eq_refl)).
Defined.

(** C10.  A note-off of a pitch that is not held leaves the held notes as
    they are and still removes the front onset record when there is one;
    from parallel lists the onset list comes out shorter than the held
    notes; and with the onset list exhausted a flush gives the record the
    default duration of 1000 ms. *)
Theorem noteOff_of_unheld_pitch env ctx p pitch :
  ~ In pitch (currentChordNotes_ p) ->
  let p' := handleEvent ctx p (NoteOffEvent pitch) in
  currentChordNotes_ p' = currentChordNotes_ p
  /\ noteOnSamplePos_ p' = tl (noteOnSamplePos_ p)
  /\ (noteOnSamplePos_ p <> [] ->
      List.length (noteOnSamplePos_ p) = List.length (currentChordNotes_ p) ->
      (List.length (noteOnSamplePos_ p') < List.length (currentChordNotes_ p'))%nat)
  /\ (currentChordNotes_ p <> [] -> noteOnSamplePos_ p' = [] ->
      forall now,
        durationMs (chordTask (set_lastBarSamplePos now p')) = 1000
        /\ (sendBatchProgression_ p = false ->
            queue_ (httpClient_ (flushChord env (set_lastBarSamplePos now p')))
            = queue_ (httpClient_ p)
              ++ [mkChordTask (map noteName (currentChordNotes_ p))
                              (lastVelocity_ p) 1000])).
Proof.
  intros Hnot p'.
  assert (Hn : currentChordNotes_ p' = currentChordNotes_ p).
  { unfold p'; rewrite handleEvent_notes; now apply erase_first_notin. }
  assert (Ho : noteOnSamplePos_ p' = tl (noteOnSamplePos_ p)).
  { unfold p'; rewrite handleEvent_onsets; now destruct (noteOnSamplePos_ p). }
  split; [exact Hn|split; [exact Ho|split]].
  - intros Hne Hlen; rewrite Hn, Ho, <- Hlen.
    destruct (noteOnSamplePos_ p); [congruence|simpl; lia].
  - intros Hne Hex now.
    assert (Hd : durationMs (chordTask (set_lastBarSamplePos now p')) = 1000)
      by (unfold chordTask; simpl; now rewrite Hex).
    split; [exact Hd|intros Hb].
    destruct (handleEvent_dispatch ctx p (NoteOffEvent pitch)) as (Hh & _ & Hs).
    fold p' in Hh, Hs.
    rewrite flushChord_enqueue; simpl; [|congruence|congruence].
    unfold chordTask; simpl; rewrite Hex, Hn, Hh.
    f_equal; f_equal; f_equal.
    unfold p'; simpl.
    destruct (erase_first pitch (currentChordNotes_ p)); reflexivity.
Qed.

Lemma noteOff_of_unheld_pitch_witness :
  let p := set_noteOnSamplePos [0] (set_currentChordNotes [60] MusicTheoryPlugin_new) in
  ~ In 61 (currentChordNotes_ p)
  /\ noteOnSamplePos_ (handleEvent None p (NoteOffEvent 61)) = []
  /\ currentChordNotes_ (handleEvent None p (NoteOffEvent 61)) = [60].
Proof.
  intros p.
  assert (H : ~ In 61 (currentChordNotes_ p))
    by (simpl; intros [H|[]]; discriminate).
  split; [exact H|].
  destruct (noteOff_of_unheld_pitch env_ok None p 61 H) as (Hn & Ho & _).
  split; [exact Ho|exact Hn].
Defined.

(* ================================================================== *)
(** * Note names *)

Lemma noteName_spec (p : Z) : 0 <= p -> noteName p = specNoteName p.
Proof.
  intros Hp; unfold noteName, specNoteName.
  rewrite Z.rem_mod_nonneg, Z.quot_div_nonneg by lia.
  destruct (Z.ltb_spec (p mod 12) 0) as [H|_]; [|reflexivity].
  pose proof (Z.mod_pos_bound p 12); lia.
Qed.

(** C7.  For a pitch between 0 and 127 the name given at flush is the
    pitch-class name at index [p mod 12] followed by [p / 12 - 1]; the
    record of a flush carries these names in the order of the held notes;
    pitches 60, 61, 72 and 0 are named C4, C#4, C5 and C-1. *)
Theorem noteName_formula :
  (forall p, 0 <= p <= 127 -> noteName p = specNoteName p)
  /\ (forall st, Forall (fun p => 0 <= p <= 127) (currentChordNotes_ st) ->
        notes (chordTask st) = map specNoteName (currentChordNotes_ st))
  /\ noteName 60 = "C4"%string
  /\ noteName 61 = "C#4"%string
  /\ noteName 72 = "C5"%string
  /\ noteName 0 = "C-1"%string.
Proof.
  split; [|split; [|repeat split; reflexivity]].
  - intros p Hp; apply noteName_spec; lia.
  - intros st Hall; unfold chordTask; simpl.
    apply map_ext_in; intros p Hin.
    rewrite Forall_forall in Hall; apply noteName_spec.
    specialize (Hall p Hin); lia.
Qed.

Lemma noteName_formula_witness :
  0 <= 127 <= 127 /\ noteName 127 = specNoteName 127
  /\ specNoteName 127 = "G9"%string.
Proof.
  assert (H : 0 <= 127 <= 127) by lia.
  split; [exact H|split; [|reflexivity]].
  exact (proj1 noteName_formula 127 H).
Defined.

(* ================================================================== *)
(** * The sender *)

(** C8.  A chord send and a progression send return [true] exactly when the
    transfer completed with a status from 200 to 299, and the status is
    then recorded in [lastStatus_]; when the transfer fails, or the curl
    handle cannot be made, the send returns [false] with the reason in
    [lastError_].  Both are total functions: nothing is raised. *)
Theorem send_reports_outcome env task chords bpm vel channel h rq r :
  (rq = chord_request (baseUrl_ h) task /\ r = postChord env task h)
  \/ (rq = progression_request env (baseUrl_ h) chords bpm vel channel
      /\ r = postProgression env chords bpm vel channel h) ->
  match curl_easy_perform env rq with
  | CurlDone code =>
      (fst r = true <-> 200 <= code < 300)
      /\ lastStatus_ (snd r) = ("HTTP " ++ to_string code)%string
  | CurlError res =>
      fst r = false /\ lastError_ (snd r) = curl_easy_strerror env res
  | CurlInitFailed =>
      fst r = false /\ lastError_ (snd r) = "curl init failed"%string
  end.
Proof.
  assert (H : forall q,
    match curl_easy_perform env q with
    | CurlDone code =>
        (fst (perform env q h) = true <-> 200 <= code < 300)
        /\ lastStatus_ (snd (perform env q h)) = ("HTTP " ++ to_string code)%string
    | CurlError res =>
        fst (perform env q h) = false
        /\ lastError_ (snd (perform env q h)) = curl_easy_strerror env res
    | CurlInitFailed =>
        fst (perform env q h) = false
        /\ lastError_ (snd (perform env q h)) = "curl init failed"%string
    end).
  { intros q; unfold perform; destruct (curl_easy_perform env q); simpl; auto.
    split; [|reflexivity].
    rewrite andb_true_iff, Z.leb_le, Z.ltb_lt; tauto. }
  intros [[-> ->]|[-> ->]]; apply H.
Qed.

Lemma send_reports_outcome_witness :
  let h := HttpClient_new "http://127.0.0.1:5544" in
  let task := mkChordTask ["C4"%string] 100 113 in
  fst (postChord env_ok task h) = true
  /\ lastStatus_ (snd (postChord env_ok task h)) = "HTTP 200"%string.
Proof.
  intros h task.
  pose proof (send_reports_outcome env_ok task [] 0 0 0 h
                (chord_request (baseUrl_ h) task) (postChord env_ok task h)
                (or_introl (conj eq_refl eq_refl))) as H.
  simpl curl_easy_perform in H. destruct H as [Hok Hst].
  split; [apply Hok; lia|exact Hst].
Defined.

(* ================================================================== *)
(** * Batching *)

Lemma flushChord_batch_step env p q n :
  sameDispatchState q p ->
  sendBatchProgression_ p = true ->
  currentChordNotes_ q <> [] ->
  List.length (progressionBuffer_ p) = n ->
  (n + 1 < barsPerBatch)%nat ->
  sendBatchProgression_ (flushChord env q) = true
  /\ httpClient_ (flushChord env q) = httpClient_ p
  /\ progressionBuffer_ (flushChord env q) = progressionBuffer_ p ++ [chordTask q].
Proof.
  intros (Hh & Hb & Hs) Hp Hq Hn Hlt.
  rewrite flushChord_buffer; [simpl|assumption|congruence|rewrite Hb; lia].
  repeat split; congruence.
Qed.

(** C6.  With batching enabled (the batch size is 4) and an empty
    progression buffer, the first three flushes of held notes send no
    progression and leave one, two and three records in the buffer; the
    fourth makes exactly one call of [postProgression], with the four
    records in order, and leaves the buffer empty.  Between two flushes the
    plugin may change in any way that keeps the buffer, the client and the
    batching flag. *)
Theorem fourth_append_sends_batch env p0 p1 p2 p3 p4 :
  sendBatchProgression_ p0 = true ->
  progressionBuffer_ p0 = [] ->
  sameDispatchState p1 p0 -> currentChordNotes_ p1 <> [] ->
  sameDispatchState p2 (flushChord env p1) -> currentChordNotes_ p2 <> [] ->
  sameDispatchState p3 (flushChord env p2) -> currentChordNotes_ p3 <> [] ->
  sameDispatchState p4 (flushChord env p3) -> currentChordNotes_ p4 <> [] ->
  (wire_ (httpClient_ (flushChord env p1)) = wire_ (httpClient_ p0)
   /\ progressionBuffer_ (flushChord env p1) = [chordTask p1])
  /\ (wire_ (httpClient_ (flushChord env p2)) = wire_ (httpClient_ p0)
      /\ progressionBuffer_ (flushChord env p2) = [chordTask p1; chordTask p2])
  /\ (wire_ (httpClient_ (flushChord env p3)) = wire_ (httpClient_ p0)
      /\ progressionBuffer_ (flushChord env p3)
         = [chordTask p1; chordTask p2; chordTask p3])
  /\ (wire_ (httpClient_ (flushChord env p4))
      = wire_ (httpClient_ p0)
        ++ [progression_request env (baseUrl_ (httpClient_ p0))
              [chordTask p1; chordTask p2; chordTask p3; chordTask p4]
              (int_of_double (tempoBPM_ p4)) (lastVelocity_ p4) 0]
      /\ progressionBuffer_ (flushChord env p4) = []
      /\ queue_ (httpClient_ (flushChord env p4)) = queue_ (httpClient_ p0)).
Proof.
  intros Hb0 He0 S1 N1 S2 N2 S3 N3 S4 N4.
  destruct (flushChord_batch_step env p0 p1 0%nat S1 Hb0 N1) as (B1 & H1 & P1);
    [now rewrite He0|unfold barsPerBatch; lia|].
  rewrite He0 in P1; simpl in P1.
  destruct (flushChord_batch_step env (flushChord env p1) p2 1%nat S2 B1 N2)
    as (B2 & H2 & P2); [now rewrite P1|unfold barsPerBatch; lia|].
  rewrite P1 in P2; simpl in P2.
  destruct (flushChord_batch_step env (flushChord env p2) p3 2%nat S3 B2 N3)
    as (B3 & H3 & P3); [now rewrite P2|unfold barsPerBatch; lia|].
  rewrite P2 in P3; simpl in P3.
  destruct S4 as (Hh4 & Hp4 & Hs4).
  split; [split; [congruence|exact P1]|].
  split; [split; [congruence|exact P2]|].
  split; [split; [congruence|exact P3]|].
  rewrite (flushChord_post env p4);
    [|assumption|congruence|rewrite Hp4, P3; unfold barsPerBatch; simpl; lia].
  simpl. unfold postProgression.
  rewrite perform_wire, perform_queue, Hp4, P3, Hh4, H3, H2, H1.
  repeat split; reflexivity.
Qed.

Lemma fourth_append_sends_batch_witness :
  let b := mkPlugin (HttpClient_new "http://h") 44100 120 0 4 4 [60] 90 [0]
                    250 0 true [] in
  let refill q := set_currentChordNotes [60] q in
  let p1 := b in
  let p2 := refill (flushChord env_ok p1) in
  let p3 := refill (flushChord env_ok p2) in
  let p4 := refill (flushChord env_ok p3) in
  sendBatchProgression_ b = true
  /\ List.length (wire_ (httpClient_ (flushChord env_ok p3))) = 0%nat
  /\ List.length (wire_ (httpClient_ (flushChord env_ok p4))) = 1%nat
  /\ progressionBuffer_ (flushChord env_ok p4) = [].
Proof.
  intros b refill p1 p2 p3 p4.
  assert (S : forall q, sameDispatchState (refill q) q)
    by (intros q; repeat split).
  assert (N : forall q, currentChordNotes_ (refill q) <> [])
    by (intros q; discriminate).
  destruct (fourth_append_sends_batch env_ok b p1 p2 p3 p4 eq_refl eq_refl
              (conj eq_refl (conj eq_refl eq_refl))
              ltac:(discriminate) (S _) (N _) (S _) (N _) (S _) (N _))
    as (_ & _ & (W3 & _) & (W4 & B4 & _)).
  split; [reflexivity|].
  split; [now rewrite W3|].
  split; [now rewrite W4|exact B4].
Defined.

(* ================================================================== *)
(** * The end-to-end scenario *)

(** After note-on 60 (velocity 100) at sample 0, note-on 64 at sample 100
    and the two note-offs at sample 5000, no note is held: the flush at
    sample 5000 changes nothing and no record C4, E4 is dispatched. *)
Lemma scenario_flush_after_release :
  let p := set_lastBarSamplePos 5000
             (runCycles env_ok (releasedC4E4 100) MusicTheoryPlugin_new) in
  currentChordNotes_ p = []
  /\ flushChord env_ok p = p
  /\ queue_ (httpClient_ (flushChord env_ok p)) = []
  /\ ~ In (mkChordTask ["C4"%string; "E4"%string] 100 113)
          (queue_ (httpClient_ (flushChord env_ok p))).
Proof. vm_compute. repeat split; try reflexivity. intros []. Qed.

(** The record of the scenario exists only while the notes are held: at
    44100 Hz and 120 BPM, after note-on 60 (velocity 100) at sample 0 and
    note-on 64 (velocity [v64]) at sample 100, a flush at sample 5000
    before the note-offs dispatches the record with notes C4, E4, the
    velocity of the last note-on and 113 ms; the same flush after the
    note-offs finds nothing.  It is the note-offs that lose the chord. *)
Lemma scenario_flush_while_held env v64 :
  let held := runCycles env (heldC4E4 v64) MusicTheoryPlugin_new in
  let released := runCycles env (releasedC4E4 v64) MusicTheoryPlugin_new in
  queue_ (httpClient_ (flushChord env (set_lastBarSamplePos 5000 held)))
  = [mkChordTask ["C4"%string; "E4"%string] v64 113]
  /\ durationMs (chordTask (set_lastBarSamplePos 5000 held))
     = int_of_double (clamp (5000 * 1000 / 44100) 50 4000)
  /\ flushChord env (set_lastBarSamplePos 5000 released)
     = set_lastBarSamplePos 5000 released.
Proof. vm_compute. repeat split; reflexivity. Qed.

(** C3 (the code departs from the claim).  In the scenario of the claim,
    note-on 60 (velocity 100) at sample 0, note-on 64 (velocity 100) at
    sample 100, note-off 60 and note-off 64 at sample 5000, at 44100 Hz and
    120 BPM, the chord C4, E4 is never dispatched.  The note-offs erase the
    held notes and the onset records, so the flush at sample 5000 finds
    nothing; and the silence flush, which the code makes for this very
    case (no note held for the silence time), calls [flushChord] on the
    empty list: the cycles at musical positions 1 and 4, each past the
    threshold of 11025 samples after the marker 5000, make the silence
    flush and enqueue nothing, and after further cycles the queue is
    still empty. *)
Theorem scenario_chord_is_never_dispatched :
  let released := runCycles env_ok (releasedC4E4 100) MusicTheoryPlugin_new in
  (currentChordNotes_ released = []
   /\ noteOnSamplePos_ released = []
   /\ lastActiveNoteSample_ released = 5000
   /\ silenceSamplesThreshold released = 11025)
  /\ queue_ (httpClient_
               (flushChord env_ok (set_lastBarSamplePos 5000 released))) = []
  /\ (snd (process env_ok (cycleAt 1 []) released) = [SilenceFlush]
      /\ queue_ (httpClient_ (fst (process env_ok (cycleAt 1 []) released)))
         = [])
  /\ (snd (process env_ok (cycleAt 4 []) released) = [SilenceFlush]
      /\ queue_ (httpClient_ (fst (process env_ok (cycleAt 4 []) released)))
         = [])
  /\ queue_ (httpClient_
               (runCycles env_ok [cycleAt 1 []; cycleAt 4 []; cycleAt 8 []]
                  released)) = []
  /\ wire_ (httpClient_
              (runCycles env_ok [cycleAt 1 []; cycleAt 4 []; cycleAt 8 []]
                 released)) = [].
Proof. vm_compute. repeat split; reflexivity. Qed.

(* ================================================================== *)
(** * Binary64 arithmetic: signs and the clamped range *)

(** The rounding of [SpecFloat] keeps the sign it is given and never makes
    a NaN out of a non-negative mantissa; so products and quotients by
    positive finite numbers keep the sign of their first operand. *)

Lemma shr_1_nonneg mrs : 0 <= shr_m mrs -> 0 <= shr_m (shr_1 mrs).
Proof.
  destruct mrs as [m r s]; simpl.
  destruct m as [|[p|p|]|[p|p|]]; simpl; lia.
Qed.

Lemma iter_shr_1_nonneg p : forall mrs,
  0 <= shr_m mrs -> 0 <= shr_m (iter_pos shr_1 p mrs).
Proof.
  induction p as [p IH|p IH|]; simpl; intros mrs H.
  - apply IH, IH, shr_1_nonneg, H.
  - apply IH, IH, H.
  - apply shr_1_nonneg, H.
Qed.

Lemma shr_fexp_nonneg m e l :
  0 <= m -> 0 <= shr_m (fst (shr_fexp prec emax m e l)).
Proof.
  intros Hm; unfold shr_fexp, shr.
  assert (H0 : 0 <= shr_m (shr_record_of_loc m l))
    by (destruct l as [|[]]; simpl; exact Hm).
  destruct (fexp prec emax (Zdigits2 m + e) - e); simpl; auto.
  now apply iter_shr_1_nonneg.
Qed.

Lemma round_nearest_even_nonneg m l : 0 <= m -> 0 <= round_nearest_even m l.
Proof.
  intros Hm; unfold round_nearest_even.
  destruct l as [|[]]; try lia. destruct (Z.even m); lia.
Qed.

Lemma binary_round_aux_sign s m e l :
  0 <= m -> SFsign s (binary_round_aux prec emax s m e l).
Proof.
  intros Hm; unfold binary_round_aux.
  pose proof (shr_fexp_nonneg m e l Hm) as H1.
  destruct (shr_fexp prec emax m e l) as [mrs' e']; simpl in H1.
  pose proof (shr_fexp_nonneg _ e' loc_Exact
                (round_nearest_even_nonneg _ (loc_of_shr_record mrs') H1)) as H2.
  destruct (shr_fexp prec emax _ e' loc_Exact) as [mrs'' e'']; simpl in H2.
  destruct (shr_m mrs'') as [|q|q]; simpl; auto.
  all: try lia.
  destruct (e'' <=? 971); simpl; reflexivity.
Qed.

Lemma binary_normalize_sign z :
  0 <= z -> SFsign false (binary_normalize prec emax z 0 false).
Proof.
  intros Hz; destruct z as [|q|q]; simpl; auto; [|lia].
  unfold binary_round.
  destruct (shl_align q 0 _) as [mz ez].
  apply binary_round_aux_sign; lia.
Qed.

Lemma SFmul_sign s x m e :
  SFsign s x -> SFsign s (SF64mul x (S754_finite false m e)).
Proof.
  destruct x as [s'|s'| |s' mx ex]; simpl; try tauto.
  - intros ->; now destruct s.
  - intros ->. replace (xorb s false) with s by now destruct s.
    apply binary_round_aux_sign; lia.
Qed.

Lemma SFdiv_sign s x m e :
  SFsign s x -> SFsign s (SF64div x (S754_finite false m e)).
Proof.
  destruct x as [s'|s'| |s' mx ex]; simpl; try tauto.
  - intros ->; now destruct s.
  - intros ->. unfold SF64div, SFdiv.
    destruct (SFdiv_core_binary prec emax (Z.pos mx) ex (Z.pos m) e)
      as [[mz ez] lz] eqn:E.
    replace (xorb s false) with s by now destruct s.
    apply binary_round_aux_sign.
    unfold SFdiv_core_binary in E.
    set (m' := match _ with Z.pos _ => _ | Z0 => Z.pos mx | Z.neg _ => 0 end) in E.
    assert (Hm' : 0 <= m').
    { unfold m'. destruct (_ - _ - _); try lia. apply Z.shiftl_nonneg; lia. }
    pose proof (Z.div_pos m' (Z.pos m) Hm' ltac:(lia)) as Hq.
    unfold Z.div in Hq.
    destruct (Z.div_eucl m' (Z.pos m)) as [q r]; simpl in Hq.
    now inversion E; subst.
Qed.

Lemma SFopp_sign s x : SFsign s x -> SFsign (negb s) (SFopp x).
Proof. destruct x; simpl; auto; now intros ->. Qed.

Lemma SFsign_neg_ltb x m e :
  SFsign true x -> SFltb x (S754_finite false m e) = true.
Proof. destruct x; simpl; try tauto; now intros ->. Qed.

Lemma SFsign_not_nan s x : SFsign s x -> x <> S754_nan.
Proof. destruct x; simpl; congruence. Qed.

(** A valid binary64 number above the subnormal range has a mantissa of
    exactly 53 bits; with the comparisons against 50 and 4000 this bounds
    the integer part of a clamped value. *)
Lemma digits2_pos_size m : digits2_pos m = Pos.size m.
Proof. induction m; simpl; congruence. Qed.

Lemma valid_mantissa_53 m e :
  valid_binary (S754_finite false m e) = true -> -1074 < e ->
  2 ^ 52 <= Z.pos m < 2 ^ 53.
Proof.
  simpl; unfold bounded, canonical_mantissa, fexp, SpecFloat.emin.
  intros H He; apply andb_prop in H as [H _]; apply Z.eqb_eq in H.
  rewrite digits2_pos_size in H.
  change (3 - emax - prec) with (-1074) in H. change prec with 53 in H.
  assert (Hs : Z.pos (Pos.size m) = 53) by lia.
  pose proof (Pos.size_gt m) as Hgt. pose proof (Pos.size_le m) as Hle.
  apply Pos2Z.pos_lt_pos in Hgt. apply Pos2Z.pos_le_pos in Hle.
  rewrite Pos2Z.inj_pow in Hgt, Hle. rewrite Hs in Hgt, Hle.
  rewrite Pos2Z.inj_xO in Hle.
  change (2 ^ 53) with (2 * 2 ^ 52) in Hle. split; [lia|exact Hgt].
Qed.

Lemma clamp_range ms :
  Prim2SF ms <> S754_nan ->
  50 <= int_of_double (clamp ms 50 4000) <= 4000.
Proof.
  intros Hnan; unfold clamp.
  destruct (ms <? 50)%float eqn:Hlo; [vm_compute; split; discriminate|].
  destruct (4000 <? ms)%float eqn:Hhi; [vm_compute; split; discriminate|].
  rewrite FloatAxioms.ltb_spec in Hlo, Hhi.
  pose proof (Prim2SF_valid ms) as Hv.
  unfold int_of_double, trunc.
  change (Prim2SF 50) with (S754_finite false 7036874417766400 (-47)) in Hlo.
  change (Prim2SF 4000) with (S754_finite false 8796093022208000 (-41)) in Hhi.
  destruct (Prim2SF ms) as [s|s| |s m e]; try congruence;
    try (destruct s; discriminate).
  destruct s; [discriminate|].
  unfold SFltb, SFcompare in Hlo, Hhi.
  assert (Hlo' : -47 < e \/ (e = -47 /\ 7036874417766400 <= Z.pos m)).
  { destruct (Z.compare_spec e (-47)) as [E|E|E];
      [right|discriminate Hlo|left; exact E].
    split; [exact E|].
    rewrite Pos.compare_cont_spec in Hlo.
    assert (H1 := Z.compare_spec (Z.pos m) 7036874417766400).
    unfold Z.compare in H1.
    destruct H1 as [E'|E'|E'];
      [rewrite E'; apply Z.le_refl|discriminate Hlo|apply Z.lt_le_incl, E']. }
  assert (Hhi' : e < -41 \/ (e = -41 /\ Z.pos m <= 8796093022208000)).
  { destruct (Z.compare_spec (-41) e) as [E|E|E];
      [right|discriminate Hhi|left; exact E].
    split; [symmetry; exact E|].
    rewrite Pos.compare_cont_spec in Hhi.
    assert (H1 := Z.compare_spec 8796093022208000 (Z.pos m)).
    unfold Z.compare in H1.
    destruct H1 as [E'|E'|E'];
      [rewrite <- E'; apply Z.le_refl|discriminate Hhi|apply Z.lt_le_incl, E']. }
  clear Hlo Hhi.
  assert (He : -47 <= e <= -41) by lia.
  pose proof (valid_mantissa_53 m e Hv ltac:(lia)) as Hm.
  clear Hv Hnan.
  change (2 ^ 52) with 4503599627370496 in Hm.
  change (2 ^ 53) with 9007199254740992 in Hm.
  assert (Hc : e = -47 \/ e = -46 \/ e = -45 \/ e = -44 \/ e = -43 \/ e = -42
               \/ e = -41) by lia.
  simpl trunc_SF.
  assert (Hz : 50 <= match e with
                     | Z.neg p => Z.shiftr (Z.pos m) (Z.pos p)
                     | _ => Z.shiftl (Z.pos m) e
                     end <= 4000).
  { destruct Hc as [->|[->|[->|[->|[->|[->| ->]]]]]];
      rewrite Z.shiftr_div_pow2 by lia;
      match goal with |- context [2 ^ ?k] =>
        let v := eval vm_compute in (2 ^ k) in change (2 ^ k) with v end;
      split.
    all: try (apply Z.div_le_lower_bound; lia).
    all: try (apply Z.div_le_upper_bound; lia). }
  set (z := match e with
            | Z.neg p => Z.shiftr (Z.pos m) (Z.pos p)
            | _ => Z.shiftl (Z.pos m) e
            end) in *.
  assert (Hr : (INT_MIN <=? z) && (z <=? INT_MAX) = true).
  { change INT_MIN with (-2147483648). change INT_MAX with 2147483647.
    apply andb_true_intro; split; apply Z.leb_le; lia. }
  cbv beta iota. rewrite Hr. exact Hz.
Qed.

(** The milliseconds computed by [durationOf]: never NaN for a positive
    finite sample rate, and negative or zero when the span is. *)
Lemma of_uint63_sign n : SFsign false (Prim2SF (of_uint63 n)).
Proof.
  rewrite FloatAxioms.of_uint63_spec. apply binary_normalize_sign.
  pose proof (Uint63.to_Z_bounded n); lia.
Qed.

Lemma double_of_int64_sign z :
  SFsign (z <? 0) (Prim2SF (double_of_int64 z)).
Proof.
  unfold double_of_int64. destruct (z <? 0).
  - destruct (z =? INT64_MIN); [vm_compute; reflexivity|].
    rewrite FloatAxioms.opp_spec. apply (SFopp_sign false), of_uint63_sign.
  - apply of_uint63_sign.
Qed.

Lemma positiveRate_finite sr :
  positiveRate sr = true -> exists m e, Prim2SF sr = S754_finite false m e.
Proof.
  unfold positiveRate; intros H; apply andb_prop in H as [H0 Hi].
  rewrite FloatAxioms.ltb_spec in H0, Hi.
  change (Prim2SF 0) with (S754_zero false) in H0.
  change (Prim2SF infinity) with (S754_infinity false) in Hi.
  destruct (Prim2SF sr) as [s|s| |s m e]; try discriminate.
  - destruct s; discriminate.
  - destruct s; [discriminate|eauto].
Qed.

Lemma ms_sign sr z :
  positiveRate sr = true ->
  SFsign (z <? 0) (Prim2SF (double_of_int64 z * 1000 / sr)).
Proof.
  intros Hsr; destruct (positiveRate_finite sr Hsr) as (m & e & Hm).
  rewrite FloatAxioms.div_spec, FloatAxioms.mul_spec, Hm.
  change (Prim2SF 1000) with (S754_finite false 8796093022208000 (-43)).
  apply SFdiv_sign, SFmul_sign, double_of_int64_sign.
Qed.

Lemma clamp_negative ms :
  SFsign true (Prim2SF ms) -> clamp ms 50 4000 = 50%float.
Proof.
  intros H; unfold clamp. rewrite FloatAxioms.ltb_spec.
  change (Prim2SF 50) with (S754_finite false 7036874417766400 (-47)).
  now rewrite SFsign_neg_ltb.
Qed.

Lemma clamp_zero sr :
  positiveRate sr = true ->
  clamp (double_of_int64 0 * 1000 / sr) 50 4000 = 50%float.
Proof.
  intros Hsr; destruct (positiveRate_finite sr Hsr) as (m & e & Hm).
  unfold clamp. rewrite FloatAxioms.ltb_spec, FloatAxioms.div_spec, FloatAxioms.mul_spec, Hm.
  reflexivity.
Qed.

Lemma durationOf_spec sr now earliest :
  positiveRate sr = true ->
  durationOf sr now earliest = specDuration sr now earliest.
Proof.
  intros Hsr; unfold durationOf, specDuration.
  destruct (Z.ltb_spec (sub64 now earliest) 0) as [Hneg|Hpos].
  - rewrite Z.max_l by lia. rewrite (clamp_zero sr Hsr).
    rewrite clamp_negative; [reflexivity|].
    pose proof (ms_sign sr (sub64 now earliest) Hsr) as H.
    destruct (Z.ltb_spec (sub64 now earliest) 0); [exact H|lia].
  - now rewrite Z.max_r by lia.
Qed.

Lemma durationOf_range sr now earliest :
  positiveRate sr = true -> 50 <= durationOf sr now earliest <= 4000.
Proof.
  intros Hsr; unfold durationOf. apply clamp_range.
  eapply SFsign_not_nan, ms_sign, Hsr.
Qed.

(* ================================================================== *)
(** * The duration of a flushed chord *)

Lemma min_element_least os : forall o,
  In (min_element o os) (o :: os)
  /\ forall x, In x (o :: os) -> min_element o os <= x.
Proof.
  unfold min_element.
  induction os as [|a os IH]; intros o; simpl.
  - split; [now left|intros x [<-|[]]; lia].
  - destruct (IH (Z.min o a)) as [Hin Hle]; split.
    + destruct Hin as [Hin|Hin]; [|now right; right].
      rewrite <- Hin.
      destruct (Z.min_spec o a) as [[_ ->]|[_ ->]]; [now left|right; now left].
    + intros x [<-|[<-|Hx]].
      * specialize (Hle (Z.min o a) (or_introl eq_refl)); lia.
      * specialize (Hle (Z.min o a) (or_introl eq_refl)); lia.
      * apply Hle; now right.
Qed.

Lemma min_element_unique o os earliest :
  In earliest (o :: os) -> (forall x, In x (o :: os) -> earliest <= x) ->
  min_element o os = earliest.
Proof.
  intros Hin Hle; destruct (min_element_least os o) as [Hin' Hle'].
  specialize (Hle _ Hin'); specialize (Hle' _ Hin); lia.
Qed.

(** C5.  A flush of held notes at [currentSample] (the caller stores it in
    [lastBarSamplePos_] first) gives the record the duration
    [clamp((currentSample - earliest) * 1000 / sampleRate, 50, 4000)],
    [earliest] being the least pending onset; 1000 when there is no onset
    record; in both cases a value from 50 to 4000.  The record is the one
    enqueued (batching off) or appended to the progression (batching on).
    The sample rate is a positive finite number, as the data model has it. *)
Theorem flush_duration env p currentSample :
  currentChordNotes_ p <> [] ->
  positiveRate (sampleRate_ p) = true ->
  let q := set_lastBarSamplePos currentSample p in
  let task := chordTask q in
  (forall earliest,
     In earliest (noteOnSamplePos_ p) ->
     (forall o, In o (noteOnSamplePos_ p) -> earliest <= o) ->
     durationMs task = specDuration (sampleRate_ p) currentSample earliest)
  /\ (noteOnSamplePos_ p = [] -> durationMs task = 1000)
  /\ 50 <= durationMs task <= 4000
  /\ (sendBatchProgression_ p = false ->
      queue_ (httpClient_ (flushChord env q)) = queue_ (httpClient_ p) ++ [task])
  /\ (sendBatchProgression_ p = true ->
      (List.length (progressionBuffer_ p) + 1 < barsPerBatch)%nat ->
      progressionBuffer_ (flushChord env q) = progressionBuffer_ p ++ [task])
  /\ (sendBatchProgression_ p = true ->
      (barsPerBatch <= List.length (progressionBuffer_ p) + 1)%nat ->
      wire_ (httpClient_ (flushChord env q))
      = wire_ (httpClient_ p)
        ++ [progression_request env (baseUrl_ (httpClient_ p))
              (progressionBuffer_ p ++ [task])
              (int_of_double (tempoBPM_ p)) (lastVelocity_ p) 0]).
Proof.
  intros Hn Hsr q task.
  assert (Hq : currentChordNotes_ q <> []) by exact Hn.
  split; [|split; [|split; [|split; [|split]]]].
  - intros earliest Hin Hle. unfold task, chordTask; simpl.
    destruct (noteOnSamplePos_ p) as [|o os]; [destruct Hin|].
    rewrite (min_element_unique o os earliest Hin Hle).
    now apply durationOf_spec.
  - intros He; unfold task, chordTask; simpl; now rewrite He.
  - unfold task, chordTask; simpl.
    destruct (noteOnSamplePos_ p) as [|o os]; [lia|].
    now apply durationOf_range.
  - intros Hb. rewrite flushChord_enqueue by assumption. reflexivity.
  - intros Hb Hlen. rewrite flushChord_buffer by assumption. reflexivity.
  - intros Hb Hlen. rewrite flushChord_post by assumption. simpl.
    unfold postProgression. now rewrite perform_wire.
Qed.

Lemma flush_duration_witness :
  let p := runCycles env_ok (heldC4E4 100) MusicTheoryPlugin_new in
  currentChordNotes_ p <> []
  /\ positiveRate (sampleRate_ p) = true
  /\ durationMs (chordTask (set_lastBarSamplePos 5000 p))
     = specDuration 44100 5000 0
  /\ specDuration 44100 5000 0 = 113.
Proof.
  intros p.
  assert (Hn : currentChordNotes_ p <> []) by (vm_compute; discriminate).
  assert (Hsr : positiveRate (sampleRate_ p) = true) by (vm_compute; reflexivity).
  split; [exact Hn|split; [exact Hsr|split; [|vm_compute; reflexivity]]].
  refine (proj1 (flush_duration env_ok p 5000 Hn Hsr) 0 _ _).
  - vm_compute; now left.
  - vm_compute. intros o [<-|[<-|[]]]; discriminate.
Defined.

(* ================================================================== *)
(** * One processing cycle *)

Lemma flushChord_lastBar env p :
  lastBarSamplePos_ (flushChord env p) = lastBarSamplePos_ p.
Proof.
  unfold flushChord. destruct (currentChordNotes_ p); [reflexivity|].
  destruct (sendBatchProgression_ p); [|reflexivity].
  cbv zeta. destruct (Nat.leb _ _); [|reflexivity].
  now destruct (postProgression _ _ _ _ _ _).
Qed.

Lemma flushChord_lastActive env p :
  lastActiveNoteSample_ (flushChord env p) = lastActiveNoteSample_ p.
Proof.
  unfold flushChord. destruct (currentChordNotes_ p); [reflexivity|].
  destruct (sendBatchProgression_ p); [|reflexivity].
  cbv zeta. destruct (Nat.leb _ _); [|reflexivity].
  now destruct (postProgression _ _ _ _ _ _).
Qed.

Lemma sub64_diag z : sub64 z z = 0.
Proof. unfold sub64; now rewrite Z.sub_diag. Qed.

Lemma isBarBoundary_at_lastBar p cur spb :
  (0 <? spb)%float = true -> lastBarSamplePos_ p = cur ->
  isBarBoundary p cur spb = false.
Proof.
  intros Hpos Hcur; unfold isBarBoundary.
  rewrite Hcur, sub64_diag.
  rewrite FloatAxioms.ltb_spec in Hpos. rewrite FloatAxioms.leb_spec.
  change (Prim2SF (double_of_int64 0)) with (S754_zero false).
  change (Prim2SF 0) with (S754_zero false) in Hpos.
  destruct (Prim2SF spb) as [s|s| |s m e]; try discriminate;
    destruct s; try discriminate; reflexivity.
Qed.

Lemma silenceDue_true p cur :
  silenceDue p cur = true ->
  currentChordNotes_ p = [] /\ 0 < lastActiveNoteSample_ p
  /\ silenceSamplesThreshold p <= sub64 cur (lastActiveNoteSample_ p).
Proof.
  unfold silenceDue. destruct (currentChordNotes_ p); [|discriminate].
  rewrite andb_true_iff, Z.ltb_lt, Z.leb_le; tauto.
Qed.

(** What [process] does once the clock is updated and the events are
    handled, by cases on the two tests, when the bar is longer than zero. *)
Lemma process_cases env data p :
  let p2 := handleMidiEvents data (updateClock (processContext data) p) in
  let cur := samplePos p2 (processContext data) in
  (0 <? samplesPerBarOf p2)%float = true ->
  process env data p =
  match processContext data with
  | Some c =>
      if projectTimeMusicValid c then
        if silenceDue p2 cur then
          (set_lastActiveNoteSample 0
             (flushChord env (set_lastBarSamplePos cur p2)), [SilenceFlush])
        else if isBarBoundary p2 cur (samplesPerBarOf p2) then
          (flushChord env (set_lastBarSamplePos cur p2), [BarFlush])
        else (p2, [])
      else (p2, [])
  | None => (p2, [])
  end.
Proof.
  intros p2 cur Hpos. unfold process. fold p2.
  destruct (processContext data) as [c|] eqn:Hc; [|reflexivity].
  destruct (projectTimeMusicValid c); [|reflexivity].
  fold cur. destruct (silenceDue p2 cur); [|reflexivity].
  rewrite isBarBoundary_at_lastBar; [reflexivity|exact Hpos|].
  simpl. now rewrite flushChord_lastBar.
Qed.

Lemma updateClock_lastActive ctx p :
  lastActiveNoteSample_ (updateClock ctx p) = lastActiveNoteSample_ p.
Proof.
  unfold updateClock. destruct ctx as [c|]; [|reflexivity].
  destruct (tempoValid c), (timeSigValid c), (sampleRateValid c); reflexivity.
Qed.

Lemma silence_needs_marker env data p :
  lastActiveNoteSample_ p = 0 -> noNoteEvents data = true ->
  ~ In SilenceFlush (snd (process env data p)).
Proof.
  intros Hm Hq. unfold process.
  set (p1 := updateClock (processContext data) p).
  assert (H2 : handleMidiEvents data p1 = p1).
  { unfold handleMidiEvents, noNoteEvents in *.
    destruct (inputEvents data); [now apply handleEvents_quiet|reflexivity]. }
  rewrite H2.
  assert (Hs : forall cur, silenceDue p1 cur = false).
  { intros cur; unfold silenceDue, p1. rewrite updateClock_lastActive, Hm.
    now destruct (currentChordNotes_ _). }
  destruct (processContext data) as [c|]; [|simpl; tauto].
  destruct (projectTimeMusicValid c); [|simpl; tauto].
  rewrite Hs.
  destruct (isBarBoundary _ _ _); simpl; [intros [H|[]]; discriminate|tauto].
Qed.

(** C4.  In a processing cycle (with a bar longer than zero samples) at
    most one flush is made; the silence flush is made only with no held
    note, a set marker and at least the threshold of samples elapsed since
    the marker; the silence flush and the bar flush are never both made,
    and when the silence test holds the flush made is the silence flush,
    whatever the bar test says; after a silence flush the marker is 0, and
    while it is 0 and no note event arrives no silence flush is made. *)
Theorem one_flush_per_cycle env data p :
  (0 <? samplesPerBarOf (updateClock (processContext data) p))%float = true ->
  let p2 := handleMidiEvents data (updateClock (processContext data) p) in
  let cur := samplePos p2 (processContext data) in
  let p' := fst (process env data p) in
  let flushes := snd (process env data p) in
  (List.length flushes <= 1)%nat
  /\ (In SilenceFlush flushes ->
      currentChordNotes_ p2 = [] /\ 0 < lastActiveNoteSample_ p2
      /\ silenceSamplesThreshold p2 <= sub64 cur (lastActiveNoteSample_ p2))
  /\ ~ (In SilenceFlush flushes /\ In BarFlush flushes)
  /\ (forall c, processContext data = Some c ->
      projectTimeMusicValid c = true ->
      silenceDue p2 cur = true -> flushes = [SilenceFlush])
  /\ (In SilenceFlush flushes ->
      lastActiveNoteSample_ p' = 0
      /\ forall env' data', noNoteEvents data' = true ->
           ~ In SilenceFlush (snd (process env' data' p'))).
Proof.
  intros Hpos p2 cur p' flushes.
  assert (Hpos2 : (0 <? samplesPerBarOf p2)%float = true)
    by (unfold p2; now rewrite handleMidiEvents_samplesPerBar).
  pose proof (process_cases env data p Hpos2) as Hcases.
  fold p2 cur in Hcases.
  assert (Hsil : In SilenceFlush flushes ->
                 silenceDue p2 cur = true /\ lastActiveNoteSample_ p' = 0).
  { unfold flushes, p'; rewrite Hcases.
    destruct (processContext data) as [c|]; [|intros []].
    destruct (projectTimeMusicValid c); [|intros []].
    destruct (silenceDue p2 cur); [intros _; split; reflexivity|].
    destruct (isBarBoundary p2 cur (samplesPerBarOf p2)); simpl;
      [intros [H|[]]; discriminate|intros []]. }
  split; [|split; [|split; [|split]]].
  - unfold flushes; rewrite Hcases.
    destruct (processContext data) as [c|]; [|simpl; lia].
    destruct (projectTimeMusicValid c); [|simpl; lia].
    destruct (silenceDue p2 cur); [simpl; lia|].
    destruct (isBarBoundary p2 cur (samplesPerBarOf p2)); simpl; lia.
  - intros H; apply silenceDue_true, Hsil, H.
  - intros [Hs Hb]. unfold flushes in Hs, Hb; rewrite Hcases in Hs, Hb.
    destruct (processContext data) as [c|]; [|destruct Hs].
    destruct (projectTimeMusicValid c); [|destruct Hs].
    destruct (silenceDue p2 cur); [destruct Hb as [Hb|[]]; discriminate|].
    destruct (isBarBoundary p2 cur (samplesPerBarOf p2)); simpl in Hs;
      [destruct Hs as [Hs|[]]; discriminate|destruct Hs].
  - intros c Hc Hv Hdue. unfold flushes; rewrite Hcases, Hc, Hv, Hdue.
    reflexivity.
  - intros H; destruct (Hsil H) as [_ Hm]; split; [exact Hm|].
    intros env' data' Hq; now apply silence_needs_marker.
Qed.

Lemma one_flush_per_cycle_witness :
  let p := set_lastActiveNoteSample 1 MusicTheoryPlugin_new in
  let data := cycleAt 5 [] in
  (0 <? samplesPerBarOf (updateClock (processContext data) p))%float = true
  /\ isBarBoundary p 110250 88200 = true
  /\ snd (process env_ok data p) = [SilenceFlush].
Proof.
  intros p data.
  assert (H : (0 <? samplesPerBarOf (updateClock (processContext data) p))%float
              = true) by (vm_compute; reflexivity).
  split; [exact H|split; [vm_compute; reflexivity|]].
  destruct (one_flush_per_cycle env_ok data p H) as (_ & _ & _ & Hprec & _).
  refine (Hprec _ eq_refl eq_refl _).
  vm_compute; reflexivity.
Defined.

(** ** What a cycle can dispatch, whatever the bar length *)

Lemma sameDispatchState_trans a b c :
  sameDispatchState a b -> sameDispatchState b c -> sameDispatchState a c.
Proof. unfold sameDispatchState; intuition congruence. Qed.

Lemma updateClock_dispatch ctx p : sameDispatchState (updateClock ctx p) p.
Proof.
  unfold updateClock, sameDispatchState. destruct ctx as [c|]; [|auto].
  destruct (tempoValid c), (timeSigValid c), (sampleRateValid c); simpl; auto.
Qed.

Lemma handleMidiEvents_dispatch data p :
  sameDispatchState (handleMidiEvents data p) p.
Proof.
  unfold handleMidiEvents. destruct (inputEvents data) as [evs|];
    [|repeat split].
  revert p; induction evs as [|e evs IH]; intros p; simpl; [repeat split|].
  eapply sameDispatchState_trans; [apply IH|apply handleEvent_dispatch].
Qed.

(** The silence flush runs only with no held note, so it builds no record:
    a cycle in which it is made leaves the queue, the trace of sends and
    the progression buffer as they were, with or without a bar flush after
    it. *)
Lemma silence_flush_dispatches_nothing env data p :
  In SilenceFlush (snd (process env data p)) ->
  sameDispatchState (fst (process env data p)) p.
Proof.
  unfold process.
  set (p2 := handleMidiEvents data (updateClock (processContext data) p)).
  assert (H2 : sameDispatchState p2 p).
  { eapply sameDispatchState_trans;
      [apply handleMidiEvents_dispatch|apply updateClock_dispatch]. }
  destruct (processContext data) as [c|]; [|intros []].
  destruct (projectTimeMusicValid c); [|intros []].
  set (cur := samplePos p2 (Some c)).
  destruct (silenceDue p2 cur) eqn:Hdue.
  - intros _. destruct (silenceDue_true p2 cur Hdue) as (Hn & _).
    rewrite (flushChord_empty env (set_lastBarSamplePos cur p2)) by exact Hn.
    destruct (isBarBoundary _ cur _); simpl; [|exact H2].
    rewrite flushChord_empty by exact Hn. exact H2.
  - destruct (isBarBoundary p2 cur _); simpl;
      [intros [H|[]]; discriminate|intros []].
Qed.

(** A cycle changes what the batcher and the sender own by at most one
    call of [flushChord]. *)
Lemma cycle_dispatches_at_most_once env data p :
  exists q, sameDispatchState q p
            /\ (sameDispatchState (fst (process env data p)) q
                \/ sameDispatchState (fst (process env data p))
                     (flushChord env q)).
Proof.
  destruct (in_dec (fun a b : FlushCause =>
                      ltac:(decide equality) : {a = b} + {a <> b})
              SilenceFlush (snd (process env data p))) as [Hin|Hnot].
  - exists p; split; [repeat split|left].
    now apply silence_flush_dispatches_nothing.
  - revert Hnot. unfold process.
    set (p2 := handleMidiEvents data (updateClock (processContext data) p)).
    assert (H2 : sameDispatchState p2 p).
    { eapply sameDispatchState_trans;
        [apply handleMidiEvents_dispatch|apply updateClock_dispatch]. }
    destruct (processContext data) as [c|];
      [|intros _; exists p2; split; [exact H2|left; repeat split]].
    destruct (projectTimeMusicValid c);
      [|intros _; exists p2; split; [exact H2|left; repeat split]].
    set (cur := samplePos p2 (Some c)).
    destruct (silenceDue p2 cur).
    + destruct (isBarBoundary _ cur _); simpl; intros Hnot;
        exfalso; apply Hnot; now left.
    + intros _. destruct (isBarBoundary p2 cur _); simpl.
      * exists (set_lastBarSamplePos cur p2); split; [exact H2|].
        right; repeat split.
      * exists p2; split; [exact H2|left; repeat split].
Qed.

(** ** The silence marker *)

(** A note-off that leaves no held note stores the sample position of the
    cycle in the marker. *)
Lemma noteOff_marks_silence ctx p pitch :
  currentChordNotes_ (handleEvent ctx p (NoteOffEvent pitch)) = [] ->
  lastActiveNoteSample_ (handleEvent ctx p (NoteOffEvent pitch))
  = samplePos p ctx.
Proof.
  simpl. destruct (erase_first pitch (currentChordNotes_ p)); simpl;
    [reflexivity|discriminate].
Qed.

(* ================================================================== *)
(** * Further properties: the sender and the worker *)

Lemma workerStep_pop env h task rest :
  queue_ h = task :: rest ->
  queue_ (workerStep env h) = rest
  /\ wire_ (workerStep env h) = wire_ h ++ [chord_request (baseUrl_ h) task]
  /\ baseUrl_ (workerStep env h) = baseUrl_ h.
Proof.
  intros Hq; unfold workerStep, postChord; rewrite Hq.
  rewrite perform_queue, perform_wire, perform_baseUrl; auto.
Qed.

(** X1.  Run for as many iterations as the queue is long, the worker posts
    every queued chord once, in the order of the queue, to the base URL of
    the client, whatever comes of each post (a failed post is not tried
    again), and leaves the queue empty; further iterations do nothing. *)
Theorem worker_posts_queue_in_order env h :
  let h' := workerRun env (List.length (queue_ h)) h in
  queue_ h' = []
  /\ wire_ h' = wire_ h ++ map (chord_request (baseUrl_ h)) (queue_ h)
  /\ baseUrl_ h' = baseUrl_ h
  /\ forall k, workerRun env k h' = h'.
Proof.
  remember (queue_ h) as q eqn:Hq. revert h Hq.
  induction q as [|task rest IH]; intros h Hq; simpl.
  - repeat split; auto; [now rewrite app_nil_r|].
    induction k as [|k IHk]; simpl; [reflexivity|].
    unfold workerStep at 1; now rewrite <- Hq.
  - destruct (workerStep_pop env h task rest (eq_sym Hq)) as (Hq' & Hw & Hb).
    destruct (IH (workerStep env h) (eq_sym Hq')) as (A & B & C & D).
    split; [exact A|split; [|split; [congruence|exact D]]].
    rewrite B, Hw, Hb, <- app_assoc; reflexivity.
Qed.

(** X2.  A completed transfer whose status is not a 2xx one makes the send
    fail without touching [lastError_]; a transfer that fails, or a handle
    that cannot be made, leaves [lastStatus_] as it was.  No send changes
    the queue or the base URL. *)
Theorem send_leaves_stale_fields env task chords bpm vel channel h rq r :
  (rq = chord_request (baseUrl_ h) task /\ r = postChord env task h)
  \/ (rq = progression_request env (baseUrl_ h) chords bpm vel channel
      /\ r = postProgression env chords bpm vel channel h) ->
  match curl_easy_perform env rq with
  | CurlDone code =>
      lastError_ (snd r) = lastError_ h
      /\ (code < 200 \/ 300 <= code -> fst r = false)
  | CurlError _ | CurlInitFailed => lastStatus_ (snd r) = lastStatus_ h
  end
  /\ queue_ (snd r) = queue_ h
  /\ baseUrl_ (snd r) = baseUrl_ h.
Proof.
  assert (H : forall q,
    match curl_easy_perform env q with
    | CurlDone code =>
        lastError_ (snd (perform env q h)) = lastError_ h
        /\ (code < 200 \/ 300 <= code -> fst (perform env q h) = false)
    | CurlError _ | CurlInitFailed =>
        lastStatus_ (snd (perform env q h)) = lastStatus_ h
    end
    /\ queue_ (snd (perform env q h)) = queue_ h
    /\ baseUrl_ (snd (perform env q h)) = baseUrl_ h).
  { intros q; rewrite perform_queue, perform_baseUrl.
    unfold perform; destruct (curl_easy_perform env q); simpl; auto.
    repeat split; auto. intros Hc.
    apply andb_false_iff; rewrite Z.leb_gt, Z.ltb_ge; lia. }
  intros [[-> ->]|[-> ->]]; apply H.
Qed.

Lemma send_leaves_stale_fields_witness :
  let env404 := mkEnv (fun _ => CurlDone 404) (fun _ => "error"%string)
                      (fun _ => "0"%string) in
  let h := mkHttpClient "http://h" [] "old error" "old status" [] in
  let task := mkChordTask ["C4"%string] 100 113 in
  fst (postChord env404 task h) = false
  /\ lastError_ (snd (postChord env404 task h)) = "old error"%string.
Proof.
  intros env404 h task.
  destruct (send_leaves_stale_fields env404 task [] 0 0 0 h
              (chord_request (baseUrl_ h) task) (postChord env404 task h)
              (or_introl (conj eq_refl eq_refl))) as (H & _).
  simpl curl_easy_perform in H. destruct H as [He Hf].
  split; [apply Hf; lia|exact He].
Defined.

(** X3.  The URL of a post is made from the base URL in force when the
    worker sends, not when the chord was enqueued: after [setBaseUrl] the
    chords already queued go to the new URL, in order. *)
Theorem queued_chords_follow_base_url env url task h :
  let h1 := setBaseUrl url (enqueueChord task h) in
  let h' := workerRun env (List.length (queue_ h1)) h1 in
  queue_ h1 = queue_ h ++ [task]
  /\ wire_ h' = wire_ h ++ map (chord_request url) (queue_ h ++ [task])
  /\ queue_ h' = [].
Proof.
  intros h1 h'.
  destruct (worker_posts_queue_in_order env h1) as (A & B & _).
  split; [reflexivity|split; [exact B|exact A]].
Qed.

(* ================================================================== *)
(** * Further properties: sending the progression on demand *)

(** X4.  [sendProgressionNow] with records in the buffer makes one call of
    [postProgression] with all of them, the tempo truncated to an integer,
    the last velocity and channel 0, and empties the buffer; with an empty
    buffer it sends nothing.  It leaves the queue, the held notes and the
    onset records alone, and a second call right after does nothing. *)
Theorem sendProgressionNow_sends_buffer env p :
  let p' := sendProgressionNow env p in
  progressionBuffer_ p' = []
  /\ wire_ (httpClient_ p')
     = wire_ (httpClient_ p)
       ++ match progressionBuffer_ p with
          | [] => []
          | _ :: _ =>
              [progression_request env (baseUrl_ (httpClient_ p))
                 (progressionBuffer_ p) (int_of_double (tempoBPM_ p))
                 (lastVelocity_ p) 0]
          end
  /\ queue_ (httpClient_ p') = queue_ (httpClient_ p)
  /\ currentChordNotes_ p' = currentChordNotes_ p
  /\ noteOnSamplePos_ p' = noteOnSamplePos_ p
  /\ sendProgressionNow env p' = p'.
Proof.
  unfold sendProgressionNow.
  destruct (progressionBuffer_ p) as [|c cs] eqn:Hb.
  - rewrite Hb, app_nil_r; auto 6.
  - unfold postProgression.
    destruct (perform env _ (httpClient_ p)) as [ok h1] eqn:Hp.
    assert (Hw := perform_wire env
      (progression_request env (baseUrl_ (httpClient_ p)) (c :: cs)
         (int_of_double (tempoBPM_ p)) (lastVelocity_ p) 0) (httpClient_ p)).
    assert (Hq := perform_queue env
      (progression_request env (baseUrl_ (httpClient_ p)) (c :: cs)
         (int_of_double (tempoBPM_ p)) (lastVelocity_ p) 0) (httpClient_ p)).
    rewrite Hp in Hw, Hq; simpl in Hw, Hq. simpl.
    repeat split; auto.
Qed.

(* ================================================================== *)
(** * Further properties: tracking the notes *)

Lemma handleEvent_velocity ctx p e :
  lastVelocity_ (handleEvent ctx p e) =
  match e with NoteOnEvent _ v => v | _ => lastVelocity_ p end.
Proof.
  destruct e; simpl; try reflexivity.
  destruct (erase_first pitch (currentChordNotes_ p)); reflexivity.
Qed.

Lemma handleEvent_samplePos ctx ctx' p e :
  samplePos (handleEvent ctx p e) ctx' = samplePos p ctx'.
Proof.
  destruct (handleEvent_clock ctx p e) as (Hs & Ht & _).
  unfold samplePos; now rewrite Hs, Ht.
Qed.

Lemma handleEvents_samplePos ctx ctx' evs : forall p,
  samplePos (fold_left (handleEvent ctx) evs p) ctx' = samplePos p ctx'.
Proof.
  induction evs as [|e evs IH]; intros p; simpl; [reflexivity|].
  now rewrite IH, handleEvent_samplePos.
Qed.

(** X5.  Note-ons with no note-off in between are held in the order they
    were played, one onset record each (the sample position of the cycle),
    so that a flush names as many notes as there were note-ons, first
    played first. *)
Theorem noteOns_accumulate_in_order data l p :
  inputEvents data = Some (noteOnsOf l) ->
  let p' := handleMidiEvents data p in
  currentChordNotes_ p' = currentChordNotes_ p ++ map fst l
  /\ noteOnSamplePos_ p'
     = noteOnSamplePos_ p
       ++ repeat (samplePos p (processContext data)) (List.length l)
  /\ (currentChordNotes_ p = [] ->
      notes (chordTask p') = map noteName (map fst l)
      /\ List.length (notes (chordTask p')) = List.length l).
Proof.
  intros Hev p'; unfold p', handleMidiEvents; rewrite Hev; clear Hev p'.
  set (ctx := processContext data).
  assert (H : forall l p,
    currentChordNotes_ (fold_left (handleEvent ctx) (noteOnsOf l) p)
    = currentChordNotes_ p ++ map fst l
    /\ noteOnSamplePos_ (fold_left (handleEvent ctx) (noteOnsOf l) p)
       = noteOnSamplePos_ p ++ repeat (samplePos p ctx) (List.length l)).
  { clear l p. induction l as [|[k v] l IH]; intros p.
    - simpl; now rewrite !app_nil_r.
    - change (noteOnsOf ((k, v) :: l)) with (NoteOnEvent k v :: noteOnsOf l).
      cbn [fold_left].
      destruct (IH (handleEvent ctx p (NoteOnEvent k v))) as [Hn Ho].
      rewrite Hn, Ho, handleEvent_samplePos, handleEvent_notes,
        handleEvent_onsets.
      cbn [map fst List.length repeat].
      now rewrite <- !app_assoc. }
  destruct (H l p) as [Hn Ho]. split; [exact Hn|split; [exact Ho|]].
  intros He; unfold chordTask; simpl; rewrite Hn, He; simpl.
  split; [reflexivity|now rewrite !length_map].
Qed.

Lemma noteOns_accumulate_in_order_witness :
  let data := cycleAt 0 (noteOnsOf [(60, 100); (64, 90); (67, 80)]) in
  notes (chordTask (handleMidiEvents data MusicTheoryPlugin_new))
  = ["C4"; "E4"; "G4"]%string.
Proof.
  intros data.
  destruct (noteOns_accumulate_in_order data [(60, 100); (64, 90); (67, 80)]
              MusicTheoryPlugin_new eq_refl) as (_ & _ & H).
  exact (proj1 (H eq_refl)).
Defined.

(** X6.  The velocity of a flushed chord is the velocity of the last
    note-on received, whatever notes are held: each note-on overwrites the
    one scalar, note-offs and other events leave it. *)
Theorem velocity_is_last_noteOn data evs p :
  inputEvents data = Some evs ->
  lastVelocity_ (handleMidiEvents data p)
  = lastNoteOnVelocity evs (lastVelocity_ p)
  /\ velocity (chordTask (handleMidiEvents data p))
     = lastNoteOnVelocity evs (lastVelocity_ p).
Proof.
  intros Hev; unfold handleMidiEvents; rewrite Hev.
  assert (H : forall p,
    lastVelocity_ (fold_left (handleEvent (processContext data)) evs p)
    = lastNoteOnVelocity evs (lastVelocity_ p)).
  { clear p Hev. unfold lastNoteOnVelocity.
    induction evs as [|e evs IH]; intros p; simpl; [reflexivity|].
    now rewrite IH, handleEvent_velocity. }
  split; [apply H|unfold chordTask; simpl; apply H].
Qed.

Lemma velocity_is_last_noteOn_witness :
  let data := cycleAt 0 [NoteOnEvent 60 100; NoteOnEvent 64 40; NoteOffEvent 64] in
  velocity (chordTask (handleMidiEvents data MusicTheoryPlugin_new)) = 40.
Proof.
  intros data.
  exact (proj2 (velocity_is_last_noteOn data _ MusicTheoryPlugin_new eq_refl)).
Defined.

(** X7.  A note-off of a held pitch removes its first occurrence only: the
    notes before it and after it stay, in order. *)
Theorem noteOff_erases_first_occurrence ctx p k before after :
  currentChordNotes_ p = before ++ k :: after ->
  ~ In k before ->
  currentChordNotes_ (handleEvent ctx p (NoteOffEvent k)) = before ++ after.
Proof.
  intros Hn Hk; rewrite handleEvent_notes, Hn; clear Hn.
  induction before as [|x before IH]; simpl.
  - now rewrite Z.eqb_refl.
  - destruct (Z.eqb_spec x k) as [->|_]; [exfalso; apply Hk; now left|].
    f_equal; apply IH; intros H; apply Hk; now right.
Qed.

Lemma noteOff_erases_first_occurrence_witness :
  let p := set_currentChordNotes [60; 64; 67; 64] MusicTheoryPlugin_new in
  currentChordNotes_ (handleEvent None p (NoteOffEvent 64)) = [60; 67; 64].
Proof.
  intros p.
  refine (noteOff_erases_first_occurrence None p 64 [60] [67; 64] eq_refl _).
  simpl; intros [H|[]]; discriminate.
Defined.

Lemma length_erase_first k l :
  (List.length (erase_first k l) <= List.length l)%nat
  /\ (List.length l <= S (List.length (erase_first k l)))%nat.
Proof.
  induction l as [|x l [IH1 IH2]]; simpl; [lia|].
  destruct (x =? k); simpl; lia.
Qed.

Lemma handleEvent_onsets_bound ctx p e :
  (List.length (noteOnSamplePos_ p) <= List.length (currentChordNotes_ p))%nat ->
  (List.length (noteOnSamplePos_ (handleEvent ctx p e))
   <= List.length (currentChordNotes_ (handleEvent ctx p e)))%nat.
Proof.
  intros H; rewrite handleEvent_notes, handleEvent_onsets.
  destruct e; try exact H.
  - rewrite !length_app; simpl; lia.
  - destruct (length_erase_first pitch (currentChordNotes_ p)) as [_ H2].
    destruct (noteOnSamplePos_ p); simpl in *; lia.
Qed.

Lemma flushChord_clears env p :
  currentChordNotes_ (flushChord env p) = []
  /\ (currentChordNotes_ p <> [] -> noteOnSamplePos_ (flushChord env p) = []).
Proof.
  unfold flushChord. destruct (currentChordNotes_ p) eqn:Hn;
    [split; [exact Hn|congruence]|].
  split; reflexivity.
Qed.

Lemma flushChord_onsets_bound env p :
  (List.length (noteOnSamplePos_ p) <= List.length (currentChordNotes_ p))%nat ->
  (List.length (noteOnSamplePos_ (flushChord env p))
   <= List.length (currentChordNotes_ (flushChord env p)))%nat.
Proof.
  intros H. destruct (currentChordNotes_ p) eqn:Hn.
  - now rewrite flushChord_empty, Hn.
  - destruct (flushChord_clears env p) as [-> Ho].
    rewrite Ho; [simpl; lia|congruence].
Qed.

Lemma updateClock_notes ctx p :
  currentChordNotes_ (updateClock ctx p) = currentChordNotes_ p
  /\ noteOnSamplePos_ (updateClock ctx p) = noteOnSamplePos_ p.
Proof.
  unfold updateClock. destruct ctx as [c|]; [|auto].
  destruct (tempoValid c), (timeSigValid c), (sampleRateValid c); auto.
Qed.

Lemma process_onsets_bound env data p :
  (List.length (noteOnSamplePos_ p) <= List.length (currentChordNotes_ p))%nat ->
  (List.length (noteOnSamplePos_ (fst (process env data p)))
   <= List.length (currentChordNotes_ (fst (process env data p))))%nat.
Proof.
  intros H. unfold process.
  set (p2 := handleMidiEvents data (updateClock (processContext data) p)).
  assert (H2 : (List.length (noteOnSamplePos_ p2)
                <= List.length (currentChordNotes_ p2))%nat).
  { unfold p2, handleMidiEvents.
    destruct (updateClock_notes (processContext data) p) as [Hn Ho].
    rewrite <- Hn, <- Ho in H.
    destruct (inputEvents data) as [evs|]; [|exact H].
    revert H; generalize (updateClock (processContext data) p).
    induction evs as [|e evs IH]; intros q Hq; simpl; [exact Hq|].
    apply IH, handleEvent_onsets_bound, Hq. }
  destruct (processContext data) as [c|]; [|exact H2].
  destruct (projectTimeMusicValid c); [|exact H2].
  set (cur := samplePos p2 (Some c)).
  assert (H3 : forall q,
    (List.length (noteOnSamplePos_ q) <= List.length (currentChordNotes_ q))%nat ->
    (List.length (noteOnSamplePos_ (flushChord env (set_lastBarSamplePos cur q)))
     <= List.length (currentChordNotes_
                       (flushChord env (set_lastBarSamplePos cur q))))%nat).
  { intros q Hq. apply flushChord_onsets_bound. exact Hq. }
  destruct (silenceDue p2 cur).
  - destruct (isBarBoundary _ cur _); simpl.
    + apply H3; simpl. apply (H3 p2 H2).
    + apply (H3 p2 H2).
  - destruct (isBarBoundary p2 cur _); simpl; [apply H3|]; exact H2.
Qed.

(** X8.  The onset list is never longer than the list of held notes: every
    event and every flush keeps this, so it holds after any number of
    cycles from a plugin where it holds, the new plugin among them. *)
Theorem onsets_never_outnumber_notes env ds p :
  (List.length (noteOnSamplePos_ p) <= List.length (currentChordNotes_ p))%nat ->
  (List.length (noteOnSamplePos_ (runCycles env ds p))
   <= List.length (currentChordNotes_ (runCycles env ds p)))%nat.
Proof.
  unfold runCycles. revert p.
  induction ds as [|d ds IH]; intros p H; simpl; [exact H|].
  apply IH, process_onsets_bound, H.
Qed.

Lemma onsets_never_outnumber_notes_witness :
  (List.length (noteOnSamplePos_
                  (runCycles env_ok (releasedC4E4 100) MusicTheoryPlugin_new))
   <= List.length (currentChordNotes_
                     (runCycles env_ok (releasedC4E4 100) MusicTheoryPlugin_new)))%nat.
Proof.
  apply (onsets_never_outnumber_notes env_ok (releasedC4E4 100)
           MusicTheoryPlugin_new).
  simpl; lia.
Defined.

(* ================================================================== *)
(** * Further properties: flushes and cycles *)

(** X9.  A flush leaves no held note and, when it had notes to flush, no
    onset record; so a second flush right after the first does nothing. *)
Theorem flushChord_idempotent env p :
  flushChord env (flushChord env p) = flushChord env p
  /\ currentChordNotes_ (flushChord env p) = []
  /\ (currentChordNotes_ p <> [] -> noteOnSamplePos_ (flushChord env p) = []).
Proof.
  destruct (flushChord_clears env p) as [Hn Ho].
  split; [now apply flushChord_empty|split; assumption].
Qed.

Lemma flushChord_idempotent_witness :
  let p := runCycles env_ok (heldC4E4 100) MusicTheoryPlugin_new in
  currentChordNotes_ p <> []
  /\ noteOnSamplePos_ (flushChord env_ok p) = [].
Proof.
  intros p.
  assert (H : currentChordNotes_ p <> []) by (vm_compute; discriminate).
  split; [exact H|].
  exact (proj2 (proj2 (flushChord_idempotent env_ok p)) H).
Defined.

Lemma sameDispatchState_refl p : sameDispatchState p p.
Proof. repeat split. Qed.

Lemma sameDispatchState_sym a b : sameDispatchState a b -> sameDispatchState b a.
Proof. unfold sameDispatchState; intuition congruence. Qed.

(** A property of what the batcher and the sender own that every flush
    keeps is kept by every cycle. *)
Lemma process_dispatch_invariant (I : MusicTheoryPlugin -> Prop) env :
  (forall a b, sameDispatchState a b -> I b -> I a) ->
  (forall p, I p -> I (flushChord env p)) ->
  forall data p, I p -> I (fst (process env data p)).
Proof.
  intros Hsame Hflush data p Hp. unfold process.
  set (p2 := handleMidiEvents data (updateClock (processContext data) p)).
  assert (H2 : I p2).
  { apply (Hsame p2 p); [|exact Hp].
    eapply sameDispatchState_trans;
      [apply handleMidiEvents_dispatch|apply updateClock_dispatch]. }
  assert (Hbar : forall x q, I q -> I (flushChord env (set_lastBarSamplePos x q))).
  { intros x q Hq. apply Hflush. apply (Hsame _ q); [repeat split|exact Hq]. }
  destruct (processContext data) as [c|]; [|exact H2].
  destruct (projectTimeMusicValid c); [|exact H2].
  set (cur := samplePos p2 (Some c)).
  assert (H3 : I (set_lastActiveNoteSample 0
                    (flushChord env (set_lastBarSamplePos cur p2)))).
  { apply (Hsame _ (flushChord env (set_lastBarSamplePos cur p2)));
      [repeat split|apply Hbar, H2]. }
  destruct (silenceDue p2 cur).
  - destruct (isBarBoundary _ cur _); simpl; [apply Hbar|]; exact H3.
  - destruct (isBarBoundary p2 cur _); simpl; [apply Hbar|]; exact H2.
Qed.

Lemma runCycles_dispatch_invariant (I : MusicTheoryPlugin -> Prop) env :
  (forall a b, sameDispatchState a b -> I b -> I a) ->
  (forall p, I p -> I (flushChord env p)) ->
  forall ds p, I p -> I (runCycles env ds p).
Proof.
  intros Hsame Hflush ds. unfold runCycles.
  induction ds as [|d ds IH]; intros p Hp; simpl; [exact Hp|].
  apply IH. now apply process_dispatch_invariant.
Qed.

(** X10.  With batching off (as the constructor leaves it, and nothing
    turns it on) no cycle performs a network send on the processing path:
    chords are only appended to the queue of the client, whose trace of
    sends, error and status strings and base URL stay as they were, and
    the progression buffer is not touched. *)
Theorem cycles_only_enqueue env ds p :
  sendBatchProgression_ p = false ->
  let p' := runCycles env ds p in
  sendBatchProgression_ p' = false
  /\ wire_ (httpClient_ p') = wire_ (httpClient_ p)
  /\ lastError_ (httpClient_ p') = lastError_ (httpClient_ p)
  /\ lastStatus_ (httpClient_ p') = lastStatus_ (httpClient_ p)
  /\ baseUrl_ (httpClient_ p') = baseUrl_ (httpClient_ p)
  /\ progressionBuffer_ p' = progressionBuffer_ p
  /\ exists added, queue_ (httpClient_ p') = queue_ (httpClient_ p) ++ added.
Proof.
  intros Hb p'. unfold p'.
  apply (runCycles_dispatch_invariant
           (fun q => sendBatchProgression_ q = false
                     /\ wire_ (httpClient_ q) = wire_ (httpClient_ p)
                     /\ lastError_ (httpClient_ q) = lastError_ (httpClient_ p)
                     /\ lastStatus_ (httpClient_ q) = lastStatus_ (httpClient_ p)
                     /\ baseUrl_ (httpClient_ q) = baseUrl_ (httpClient_ p)
                     /\ progressionBuffer_ q = progressionBuffer_ p
                     /\ exists added,
                          queue_ (httpClient_ q)
                          = queue_ (httpClient_ p) ++ added)).
  - intros a b (Hh & Hp & Hs). rewrite Hh, Hp, Hs. tauto.
  - intros q (Hq & Hw & He & Hs & Hu & Hp & added & Ha).
    destruct (currentChordNotes_ q) eqn:Hn.
    + rewrite flushChord_empty by exact Hn. eauto 10.
    + rewrite flushChord_enqueue by congruence. simpl.
      repeat split; auto. exists (added ++ [chordTask q]).
      now rewrite Ha, app_assoc.
  - repeat split; auto. exists []; now rewrite app_nil_r.
Qed.

Lemma cycles_only_enqueue_witness :
  sendBatchProgression_ MusicTheoryPlugin_new = false
  /\ wire_ (httpClient_ (runCycles env_ok (releasedC4E4 100) MusicTheoryPlugin_new))
     = [].
Proof.
  split; [reflexivity|].
  exact (proj1 (proj2 (cycles_only_enqueue env_ok (releasedC4E4 100)
                         MusicTheoryPlugin_new eq_refl))).
Defined.

(** X11.  The progression buffer stays below the batch size: from fewer
    than four records no number of cycles leaves four or more in it. *)
Theorem progression_buffer_bounded env ds p :
  (List.length (progressionBuffer_ p) < barsPerBatch)%nat ->
  (List.length (progressionBuffer_ (runCycles env ds p)) < barsPerBatch)%nat.
Proof.
  apply (runCycles_dispatch_invariant
           (fun q => (List.length (progressionBuffer_ q) < barsPerBatch)%nat)).
  - intros a b (_ & Hp & _). now rewrite Hp.
  - intros q Hq.
    destruct (currentChordNotes_ q) eqn:Hn;
      [now rewrite flushChord_empty|].
    destruct (sendBatchProgression_ q) eqn:Hb.
    + destruct (Nat.leb_spec barsPerBatch
                  (List.length (progressionBuffer_ q) + 1)) as [Hfull|Hroom].
      * rewrite flushChord_post by congruence. unfold barsPerBatch; simpl; lia.
      * rewrite flushChord_buffer by congruence. simpl.
        rewrite length_app; simpl; lia.
    + rewrite flushChord_enqueue by congruence. exact Hq.
Qed.

Lemma progression_buffer_bounded_witness :
  let b := mkPlugin (HttpClient_new "http://h") 44100 120 0 4 4 [] 90 []
                    250 0 true [] in
  (List.length (progressionBuffer_
                  (runCycles env_ok
                     [cycleAt 0 [NoteOnEvent 60 100]; cycleAt 4 [];
                      cycleAt 4 [NoteOnEvent 62 100]; cycleAt 8 []] b))
   < barsPerBatch)%nat.
Proof.
  intros b.
  apply (progression_buffer_bounded env_ok _ b).
  unfold barsPerBatch; simpl; lia.
Defined.

(** X12.  Without a context, or with a context whose musical position is
    not valid, a cycle only updates the clock and handles the events: no
    flush is made, nothing is dispatched however long notes have been
    held, and the sample position it gives to its note-ons is 0. *)
Theorem no_position_no_flush env data p :
  (forall c, processContext data = Some c -> projectTimeMusicValid c = false) ->
  process env data p
  = (handleMidiEvents data (updateClock (processContext data) p), [])
  /\ sameDispatchState (fst (process env data p)) p
  /\ forall q, samplePos q (processContext data) = 0.
Proof.
  intros Hnone.
  assert (Hp : process env data p
               = (handleMidiEvents data (updateClock (processContext data) p), [])).
  { unfold process. destruct (processContext data) as [c|]; [|reflexivity].
    now rewrite (Hnone c eq_refl). }
  split; [exact Hp|split].
  - rewrite Hp; simpl. eapply sameDispatchState_trans;
      [apply handleMidiEvents_dispatch|apply updateClock_dispatch].
  - intros q. unfold samplePos. destruct (processContext data) as [c|];
      [now rewrite (Hnone c eq_refl)|reflexivity].
Qed.

Lemma no_position_no_flush_witness :
  let data := mkProcessData None (Some [NoteOnEvent 60 100]) in
  snd (process env_ok data MusicTheoryPlugin_new) = []
  /\ noteOnSamplePos_ (fst (process env_ok data MusicTheoryPlugin_new)) = [0].
Proof.
  intros data.
  assert (H : forall c, processContext data = Some c ->
                        projectTimeMusicValid c = false)
    by (intros c Hc; discriminate Hc).
  destruct (no_position_no_flush env_ok data MusicTheoryPlugin_new H) as (Hp & _).
  rewrite Hp. split; reflexivity.
Defined.

(** X13.  A cycle that makes no bar flush dispatches nothing: the silence
    flush, running only when no note is held, never emits a chord.  Every
    chord the plugin dispatches is dispatched by a bar flush. *)
Theorem only_bar_flush_dispatches env data p :
  ~ In BarFlush (snd (process env data p)) ->
  sameDispatchState (fst (process env data p)) p.
Proof.
  unfold process.
  set (p2 := handleMidiEvents data (updateClock (processContext data) p)).
  assert (H2 : sameDispatchState p2 p).
  { eapply sameDispatchState_trans;
      [apply handleMidiEvents_dispatch|apply updateClock_dispatch]. }
  destruct (processContext data) as [c|]; [|intros _; exact H2].
  destruct (projectTimeMusicValid c); [|intros _; exact H2].
  set (cur := samplePos p2 (Some c)).
  destruct (silenceDue p2 cur) eqn:Hdue.
  - destruct (silenceDue_true p2 cur Hdue) as (Hn & _).
    rewrite (flushChord_empty env (set_lastBarSamplePos cur p2)) by exact Hn.
    destruct (isBarBoundary _ cur _); simpl; intros Hnot; [|exact H2].
    exfalso; apply Hnot; right; now left.
  - destruct (isBarBoundary p2 cur _); simpl; intros Hnot; [|exact H2].
    exfalso; apply Hnot; now left.
Qed.

Lemma only_bar_flush_dispatches_witness :
  let p := set_lastActiveNoteSample 1 MusicTheoryPlugin_new in
  snd (process env_ok (cycleAt 1 []) p) = [SilenceFlush]
  /\ queue_ (httpClient_ (fst (process env_ok (cycleAt 1 []) p))) = [].
Proof.
  intros p.
  assert (H : ~ In BarFlush (snd (process env_ok (cycleAt 1 []) p))).
  { vm_compute. intros [H|[]]; discriminate. }
  destruct (only_bar_flush_dispatches env_ok (cycleAt 1 []) p H) as (Hh & _).
  split; [vm_compute; reflexivity|].
  rewrite Hh; reflexivity.
Defined.

(** X14.  When notes are held after the events of a cycle and the bar test
    holds, the cycle makes the bar flush alone: with batching off the
    chord of the held notes, its duration measured to the current
    position, is appended to the queue; the held notes and the onset
    records are cleared and the current position becomes the start of the
    bar. *)
Theorem bar_flush_enqueues_held_chord env data p c :
  processContext data = Some c ->
  projectTimeMusicValid c = true ->
  let p2 := handleMidiEvents data (updateClock (processContext data) p) in
  let cur := samplePos p2 (processContext data) in
  currentChordNotes_ p2 <> [] ->
  isBarBoundary p2 cur (samplesPerBarOf p2) = true ->
  sendBatchProgression_ p = false ->
  let p' := fst (process env data p) in
  snd (process env data p) = [BarFlush]
  /\ queue_ (httpClient_ p')
     = queue_ (httpClient_ p) ++ [chordTask (set_lastBarSamplePos cur p2)]
  /\ currentChordNotes_ p' = []
  /\ noteOnSamplePos_ p' = []
  /\ lastBarSamplePos_ p' = cur.
Proof.
  intros Hc Hv p2 cur Hn Hbar Hb p'.
  assert (H2 : sameDispatchState p2 p).
  { eapply sameDispatchState_trans;
      [apply handleMidiEvents_dispatch|apply updateClock_dispatch]. }
  destruct H2 as (Hh & _ & Hs).
  assert (Hp : process env data p
               = (flushChord env (set_lastBarSamplePos cur p2), [BarFlush])).
  { assert (Hd : silenceDue p2 cur = false).
    { unfold silenceDue. destruct (currentChordNotes_ p2); congruence. }
    unfold process. fold p2. fold cur. rewrite Hc, Hv, Hd, Hbar.
    reflexivity. }
  unfold p'. rewrite Hp. simpl fst; simpl snd.
  rewrite flushChord_enqueue; simpl; [|exact Hn|congruence].
  rewrite Hh. repeat split; reflexivity.
Qed.

Lemma bar_flush_enqueues_held_chord_witness :
  let data := cycleAt 4 [NoteOnEvent 60 100] in
  snd (process env_ok data MusicTheoryPlugin_new) = [BarFlush]
  /\ lastBarSamplePos_ (fst (process env_ok data MusicTheoryPlugin_new)) = 88200.
Proof.
  intros data.
  destruct (bar_flush_enqueues_held_chord env_ok data MusicTheoryPlugin_new
              (mkProcessContext false false false true 0 0 0 0 4)
              eq_refl eq_refl)
    as (Hf & _ & _ & _ & Hl).
  - vm_compute; discriminate.
  - vm_compute; reflexivity.
  - reflexivity.
  - split; [exact Hf|]. rewrite Hl. vm_compute; reflexivity.
Defined.

(* ================================================================== *)
(** * Further properties: the clock *)

Lemma flushChord_clock env p :
  sampleRate_ (flushChord env p) = sampleRate_ p
  /\ tempoBPM_ (flushChord env p) = tempoBPM_ p
  /\ timeSigNum_ (flushChord env p) = timeSigNum_ p
  /\ timeSigDen_ (flushChord env p) = timeSigDen_ p
  /\ silenceFlushMs_ (flushChord env p) = silenceFlushMs_ p.
Proof.
  unfold flushChord. destruct (currentChordNotes_ p); [auto|].
  destruct (sendBatchProgression_ p); [|simpl; auto].
  cbv zeta. destruct (Nat.leb _ _); [|simpl; auto].
  destruct (postProgression _ _ _ _ _ _); simpl; auto.
Qed.

Lemma process_clock env data p :
  let p1 := updateClock (processContext data) p in
  let p' := fst (process env data p) in
  sampleRate_ p' = sampleRate_ p1
  /\ tempoBPM_ p' = tempoBPM_ p1
  /\ timeSigNum_ p' = timeSigNum_ p1
  /\ timeSigDen_ p' = timeSigDen_ p1
  /\ silenceFlushMs_ p' = silenceFlushMs_ p1.
Proof.
  intros p1 p'. unfold p', process. fold p1.
  set (p2 := handleMidiEvents data p1).
  assert (H2 : sampleRate_ p2 = sampleRate_ p1
               /\ tempoBPM_ p2 = tempoBPM_ p1
               /\ timeSigNum_ p2 = timeSigNum_ p1
               /\ timeSigDen_ p2 = timeSigDen_ p1
               /\ silenceFlushMs_ p2 = silenceFlushMs_ p1).
  { unfold p2, handleMidiEvents. destruct (inputEvents data) as [evs|]; [|auto].
    destruct (handleEvents_clock (processContext data) evs p1)
      as (a & b & c & d & e & _); auto. }
  assert (Hf : forall x q,
    (sampleRate_ q = sampleRate_ p1 /\ tempoBPM_ q = tempoBPM_ p1
     /\ timeSigNum_ q = timeSigNum_ p1 /\ timeSigDen_ q = timeSigDen_ p1
     /\ silenceFlushMs_ q = silenceFlushMs_ p1) ->
    let r := flushChord env (set_lastBarSamplePos x q) in
    sampleRate_ r = sampleRate_ p1 /\ tempoBPM_ r = tempoBPM_ p1
    /\ timeSigNum_ r = timeSigNum_ p1 /\ timeSigDen_ r = timeSigDen_ p1
    /\ silenceFlushMs_ r = silenceFlushMs_ p1).
  { intros x q Hq r.
    destruct (flushChord_clock env (set_lastBarSamplePos x q))
      as (a & b & c & d & e).
    unfold r; rewrite a, b, c, d, e; exact Hq. }
  destruct (processContext data) as [c|]; [|exact H2].
  destruct (projectTimeMusicValid c); [|exact H2].
  set (cur := samplePos p2 (Some c)).
  destruct (silenceDue p2 cur).
  - destruct (isBarBoundary _ cur _); simpl.
    + apply Hf. simpl. apply (Hf cur p2 H2).
    + apply (Hf cur p2 H2).
  - destruct (isBarBoundary p2 cur _); simpl; [apply Hf|]; exact H2.
Qed.

(** X15.  After a cycle the tempo, the time signature and the sample rate
    are those the host reported in it when the field is flagged valid, and
    otherwise those of the cycle before: a stale value persists, nothing
    is reset to a default.  The numerator and the denominator change
    together, under the one flag.  The silence time is never changed. *)
Theorem clock_follows_valid_fields env data p :
  let p' := fst (process env data p) in
  tempoBPM_ p'
  = match processContext data with
    | Some c => if tempoValid c then tempo c else tempoBPM_ p
    | None => tempoBPM_ p
    end
  /\ (timeSigNum_ p', timeSigDen_ p')
     = match processContext data with
       | Some c => if timeSigValid c
                   then (timeSigNumerator c, timeSigDenominator c)
                   else (timeSigNum_ p, timeSigDen_ p)
       | None => (timeSigNum_ p, timeSigDen_ p)
       end
  /\ sampleRate_ p'
     = match processContext data with
       | Some c => if sampleRateValid c then sampleRate c else sampleRate_ p
       | None => sampleRate_ p
       end
  /\ silenceFlushMs_ p' = silenceFlushMs_ p.
Proof.
  intros p'. destruct (process_clock env data p) as (a & b & c & d & e).
  fold p' in a, b, c, d, e. rewrite a, b, c, d, e.
  unfold updateClock. destruct (processContext data) as [ctx|]; [|auto].
  destruct (tempoValid ctx), (timeSigValid ctx), (sampleRateValid ctx);
    simpl; auto.
Qed.

Lemma flushChord_lastBar_only env p x :
  lastBarSamplePos_ (flushChord env (set_lastBarSamplePos x p)) = x.
Proof. now rewrite flushChord_lastBar. Qed.

(** X16.  The start of the bar moves exactly when a flush is made, and it
    moves to the position of the cycle, not to a point of the host's bar
    grid: after a silence flush or a bar flush the next bar is counted
    from the cycle in which the flush was made. *)
Theorem bar_start_moves_with_flush env data p :
  let p2 := handleMidiEvents data (updateClock (processContext data) p) in
  let cur := samplePos p2 (processContext data) in
  lastBarSamplePos_ (fst (process env data p))
  = match snd (process env data p) with
    | [] => lastBarSamplePos_ p
    | _ :: _ => cur
    end.
Proof.
  intros p2 cur. unfold process. fold p2.
  assert (H2 : lastBarSamplePos_ p2 = lastBarSamplePos_ p).
  { unfold p2, handleMidiEvents.
    assert (H1 : lastBarSamplePos_ (updateClock (processContext data) p)
                 = lastBarSamplePos_ p).
    { unfold updateClock. destruct (processContext data) as [c|]; [|auto].
      destruct (tempoValid c), (timeSigValid c), (sampleRateValid c); auto. }
    destruct (inputEvents data) as [evs|]; [|exact H1].
    destruct (handleEvents_clock (processContext data) evs
                (updateClock (processContext data) p))
      as (_ & _ & _ & _ & _ & ->). exact H1. }
  unfold cur. destruct (processContext data) as [c|]; [|exact H2].
  destruct (projectTimeMusicValid c); [|exact H2].
  destruct (silenceDue p2 (samplePos p2 (Some c))).
  - destruct (isBarBoundary _ _ _); simpl.
    + apply flushChord_lastBar_only.
    + apply flushChord_lastBar_only.
  - destruct (isBarBoundary p2 _ _); simpl;
      [apply flushChord_lastBar_only|exact H2].
Qed.

(* ================================================================== *)
(** * Further properties: note names *)

(** X17.  Over the MIDI pitches 0 to 127 the note name identifies the
    pitch: two different pitches never get the same name. *)
Theorem noteName_injective p q :
  0 <= p <= 127 -> 0 <= q <= 127 -> noteName p = noteName q -> p = q.
Proof.
  assert (Hall : forallb (fun a =>
                   forallb (fun b =>
                     implb (String.eqb (noteName a) (noteName b)) (a =? b))
                     midiPitches) midiPitches = true)
    by (vm_compute; reflexivity).
  assert (Hin : forall z, 0 <= z <= 127 -> In z midiPitches).
  { intros z Hz. unfold midiPitches.
    apply in_map_iff. exists (Z.to_nat z). split; [lia|].
    apply in_seq. lia. }
  intros Hp Hq Heq.
  rewrite forallb_forall in Hall. specialize (Hall p (Hin p Hp)).
  rewrite forallb_forall in Hall. specialize (Hall q (Hin q Hq)).
  rewrite Heq, String.eqb_refl in Hall. simpl in Hall.
  now apply Z.eqb_eq.
Qed.

Lemma noteName_injective_witness :
  0 <= 61 <= 127 /\ noteName 61 = "C#4"%string /\ 61 = 61.
Proof.
  assert (H : 0 <= 61 <= 127) by lia.
  split; [exact H|split; [reflexivity|]].
  exact (noteName_injective 61 61 H H eq_refl).
Defined.

(* ================================================================== *)
(** * Further properties: the shortest duration *)

(** X18.  A chord none of whose onsets lies before the position of the
    flush (a note played in the very cycle that flushes it, or a position
    that went back) is given the least duration, 50 ms. *)
Theorem flush_of_fresh_notes_lasts_50 p currentSample earliest :
  positiveRate (sampleRate_ p) = true ->
  In earliest (noteOnSamplePos_ p) ->
  (forall o, In o (noteOnSamplePos_ p) -> earliest <= o) ->
  sub64 currentSample earliest <= 0 ->
  durationMs (chordTask (set_lastBarSamplePos currentSample p)) = 50.
Proof.
  intros Hsr Hin Hle Hspan. unfold chordTask; simpl.
  destruct (noteOnSamplePos_ p) as [|o os]; [destruct Hin|].
  rewrite (min_element_unique o os earliest Hin Hle).
  unfold durationOf. rewrite Z.max_l by exact Hspan.
  now rewrite (clamp_zero _ Hsr).
Qed.

Lemma flush_of_fresh_notes_lasts_50_witness :
  let p := fst (process env_ok (cycleAt 4 [NoteOnEvent 60 100])
                  (set_lastBarSamplePos 88200 MusicTheoryPlugin_new)) in
  noteOnSamplePos_ p = [88200]
  /\ durationMs (chordTask (set_lastBarSamplePos 88200 p)) = 50.
Proof.
  intros p.
  assert (Ho : noteOnSamplePos_ p = [88200]) by (vm_compute; reflexivity).
  split; [exact Ho|].
  apply (flush_of_fresh_notes_lasts_50 p 88200 88200).
  - vm_compute; reflexivity.
  - rewrite Ho; now left.
  - rewrite Ho; intros o [<-|[]]; lia.
  - vm_compute; discriminate.
Defined.
